(** * gpt_smart_speaker: a model of the audio/utterance pipeline

    Shallow embedding of [smart_speaker.py] and [gpt.py]:
    - [MicrophoneStream]: the capture callback, the queue and the consumer
      generator;
    - [text_message]: one dialog turn with the half-duplex mute of the
      microphone;
    - [listen_print_loop]: the segmentation loop over recognizer responses;
    - [ask]: the history window, the completion request and the history file;
    - [initialize_audio] and [play_greeting]: the start-up of the player.

    Python values are modelled as follows: [bytes] is a list of bytes, [str] a
    list of Unicode code points ([len] is the number of code points), wall-clock
    readings of [time.time()] are rationals, a [queue.Queue] is a list used
    first-in first-out, and a raised exception is a value of [exn]. *)

From Stdlib Require Import String List Bool Arith ZArith NArith QArith Lia.
Import ListNotations.

Set Implicit Arguments.

(** * Part I: the program *)

(** ** Python runtime: exceptions, strings *)

Module Py.

(** The exception classes that the two source files can meet.  Only the
    position in the class hierarchy matters to the handlers of the code:
    [except OSError], [except Exception] and the bare [except:]. *)
Inductive exn : Type :=
| FileNotFoundError      (* OSError *)
| PermissionError        (* OSError *)
| EmptyDataError         (* pandas.errors, a ValueError *)
| ParserError            (* pandas.errors, a ValueError *)
| UnicodeDecodeError     (* a ValueError *)
| KeyError
| OpenAIError
| GoogleAPIError
| ALSAAudioError
| PygameError
| KeyboardInterrupt.     (* BaseException, not an Exception *)

Definition is_OSError (e : exn) : bool :=
  match e with
  | FileNotFoundError | PermissionError => true
  | _ => false
  end.

Definition is_Exception (e : exn) : bool :=
  match e with
  | KeyboardInterrupt => false
  | _ => true
  end.

(** Outcome of a call that may raise. *)
Inductive result (A : Type) : Type :=
| Ok (a : A)
| Raise (e : exn).
Arguments Ok {A} a.
Arguments Raise {A} e.

(** A [str] is a sequence of code points. *)
Definition char := N.
Definition str := list char.

(** [Py_UNICODE_ISSPACE]: the code points [str.isspace] and [str.strip]
    treat as whitespace. *)
Definition is_whitespace (c : char) : bool :=
  ((9 <=? c) && (c <=? 13) || (28 <=? c) && (c <=? 32)
   || (c =? 133) || (c =? 160) || (c =? 5760)
   || (8192 <=? c) && (c <=? 8202)
   || (c =? 8232) || (c =? 8233) || (c =? 8239) || (c =? 8287)
   || (c =? 12288))%N.

(** [s.isspace()]: non-empty and made of whitespace only. *)
Definition isspace (s : str) : bool :=
  match s with
  | [] => false
  | _ => forallb is_whitespace s
  end.

Fixpoint lstrip (s : str) : str :=
  match s with
  | [] => []
  | c :: r => if is_whitespace c then lstrip r else s
  end.

Definition rstrip (s : str) : str := rev (lstrip (rev s)).

(** [s.strip()] *)
Definition strip (s : str) : str := rstrip (lstrip s).

(** [len(s)] *)
Definition len (s : str) : Z := Z.of_nat (length s).

End Py.

(** ** smart_speaker.py: MicrophoneStream *)

Module Capture.

Definition bytes := list Byte.byte.

(** [b"".join(data)] *)
Definition join (data : list bytes) : bytes := concat data.

(** PortAudio callback return codes. *)
Definition paContinue : Z := 0.
Definition paComplete : Z := 1.
Definition paAbort : Z := 2.

(** The queue holds chunks and the sentinel [None]. *)
Definition item := option bytes.

Record MicrophoneStream : Type := mkStream {
  _rate : Z;
  _chunk : Z;
  _buff : list item;          (* queue.Queue(): head is the oldest item *)
  closed : bool
}.

Definition set_buff (self : MicrophoneStream) (q : list item) :=
  mkStream (_rate self) (_chunk self) q (closed self).

Definition set_closed (self : MicrophoneStream) (b : bool) :=
  mkStream (_rate self) (_chunk self) (_buff self) b.

(** [self._buff.put(x)] *)
Definition put (self : MicrophoneStream) (x : item) : MicrophoneStream :=
  set_buff self (_buff self ++ [x]).

Definition __init__ (rate chunk : Z) : MicrophoneStream :=
  mkStream rate chunk [] true.

(** [__enter__], when the device opens. *)
Definition __enter__ (self : MicrophoneStream) : MicrophoneStream :=
  set_closed self false.

(** [__exit__]: [closed = True], then the sentinel is enqueued. *)
Definition __exit__ (self : MicrophoneStream) : MicrophoneStream :=
  put (set_closed self true) None.

(** [_fill_buffer]: the stream afterwards and the returned pair. *)
Definition _fill_buffer (self : MicrophoneStream)
    (in_data : bytes) (frame_count : Z) (time_info : Q) (status_flags : Z)
  : MicrophoneStream * (option bytes * Z) :=
  (put self (Some in_data), (None, paContinue)).

(** Where the body of [generator] stands between two queue operations. *)
Inductive gen_state : Type :=
| LoopHead                       (* about to test [not self.closed] *)
| BlockingGet                    (* in [self._buff.get()] *)
| Drain (data : list bytes)      (* in the inner [while True] *)
| Finished.                      (* returned *)

(** [generator], one move at a time: the stream, the next control point and
    the block yielded by the move, if any.  A blocking [get] on an empty queue
    waits; a non-blocking one raises [queue.Empty], which ends the inner
    loop and yields the joined data. *)
Definition generator (self : MicrophoneStream) (pc : gen_state)
  : MicrophoneStream * gen_state * option bytes :=
  match pc with
  | LoopHead =>
      if closed self then (self, Finished, None)
      else (self, BlockingGet, None)
  | BlockingGet =>
      match _buff self with
      | [] => (self, BlockingGet, None)
      | None :: q => (set_buff self q, Finished, None)
      | Some chunk :: q => (set_buff self q, Drain [chunk], None)
      end
  | Drain data =>
      match _buff self with
      | [] => (self, LoopHead, Some (join data))
      | None :: q => (set_buff self q, Finished, None)
      | Some chunk :: q => (set_buff self q, Drain (data ++ [chunk]), None)
      end
  | Finished => (self, Finished, None)
  end.

(** The producer (audio subsystem and [__exit__]) and the consumer
    interleave at the granularity of queue operations. *)
Inductive action : Type :=
| Callback (in_data : bytes) (status_flags : Z)
| Exit
| Next.

Record system : Type := mkSystem {
  stream : MicrophoneStream;
  pc : gen_state;
  yielded : list bytes
}.

Definition act (s : system) (a : action) : system :=
  match a with
  | Callback in_data status_flags =>
      mkSystem (fst (_fill_buffer (stream s) in_data 0 0 status_flags))
               (pc s) (yielded s)
  | Exit => mkSystem (__exit__ (stream s)) (pc s) (yielded s)
  | Next =>
      match generator (stream s) (pc s) with
      | (self, pc', out) =>
          mkSystem self pc'
                   (match out with
                    | Some block => yielded s ++ [block]
                    | None => yielded s
                    end)
      end
  end.

Definition run (s : system) (sched : list action) : system :=
  fold_left act sched s.

(** An opened stream with a fresh generator. *)
Definition opened (rate chunk : Z) : system :=
  mkSystem (__enter__ (__init__ rate chunk)) LoopHead [].

(** The chunks the callback pushed during a schedule, in push order. *)
Fixpoint pushed (sched : list action) : list bytes :=
  match sched with
  | [] => []
  | Callback in_data _ :: r => in_data :: pushed r
  | _ :: r => pushed r
  end.

End Capture.

(** ** gpt.py: ask *)

Module Gpt.
Import Py.

Definition HISTORY_LENGTH : nat := 8.
Definition TEMPERATURE : Q := 7 # 10.

(** A row of the history table: columns [user_id], [role], [content]. *)
Record row : Type := mkRow {
  user_id : Z;
  role : string;
  content : str
}.

(** An entry of [messages]: the [role] and [content] keys, and the
    [temperature] key that only the system entry carries. *)
Record message : Type := mkMessage {
  msg_role : string;
  msg_content : str;
  msg_temperature : option Q
}.

(** [df.tail(n)]: the last [n] rows, in the order of the table. *)
Definition tail (n : nat) (A : Type) (rows : list A) : list A :=
  skipn (length rows - n) rows.
Arguments tail n {A} rows.

(** [history[history['user_id'] == user_id]] *)
Definition rows_of (uid : Z) (history : list row) : list row :=
  filter (fun r => Z.eqb (user_id r) uid) history.

(** [df[['role', 'content']].to_dict('records')] *)
Definition to_dict_records (rows : list row) : list message :=
  map (fun r => mkMessage (role r) (content r) None) rows.

(** The [messages] expression of [ask], on the history in memory. *)
Definition build_messages (role_text : str) (uid : Z) (history : list row)
  : list message :=
  [ mkMessage "system" role_text (Some TEMPERATURE);
    mkMessage "user" [] None ]
  ++ to_dict_records (tail HISTORY_LENGTH (rows_of uid history)).

(** What [ask] does to the outside, in order. *)
Inductive event : Type :=
| Requested (messages : list message)     (* ChatCompletion.create *)
| Saved (table : list row).               (* history.to_csv *)

(** The outside of [ask]: the two files, the completion backend (the call
    and the extraction of the reply text, which may raise), the file system
    and the trace of what was requested and saved.
    - [history_csv] is what [pd.read_csv(HISTORY_FILE)] does on the file as
      it is: it returns a table or raises.
    - [csv_write cur table] is what [history.to_csv(HISTORY_FILE)] does
      with [table] on a file that reads as [cur]: [None] when the write
      succeeds, or the exception it raises and how the file reads
      afterwards (as before, truncated, ...).
    - [csv_reread table] is what [pd.read_csv] does on the file a
      successful [to_csv] made of [table]: pandas parses the text again, and
      the table it returns need not be the one that was written. *)
Record world : Type := mkWorld {
  history_csv : result (list row);
  role_txt : result str;
  completion : list message -> result str;
  csv_write : result (list row) -> list row -> option (exn * result (list row));
  csv_reread : list row -> result (list row);
  trace : list event
}.

Definition log (w : world) (ev : event) : world :=
  mkWorld (history_csv w) (role_txt w) (completion w)
          (csv_write w) (csv_reread w) (trace w ++ [ev]).

(** [history.to_csv(HISTORY_FILE, index=False)]: the file is rewritten in
    full, or the write raises. *)
Definition to_csv (w : world) (table : list row) : world * result unit :=
  match csv_write w (history_csv w) table with
  | None =>
      (mkWorld (csv_reread w table) (role_txt w) (completion w)
               (csv_write w) (csv_reread w) (trace w ++ [Saved table]),
       Ok tt)
  | Some (e, after) =>
      (mkWorld after (role_txt w) (completion w)
               (csv_write w) (csv_reread w) (trace w),
       Raise e)
  end.

(** The first half of [ask], up to the [messages] list: the table in
    memory and the request, or the exception that ended the call. *)
Definition prepare (w : world) (uid : Z) (text : str)
  : result (list row * list message) :=
  match
    match history_csv w with
    | Ok table => Ok table
    | Raise e => if is_OSError e then Ok [] else Raise e
    end
  with
  | Raise e => Raise e
  | Ok history =>
      match role_txt w with
      | Raise e => Raise e
      | Ok role_text =>
          let history := history ++ [mkRow uid "user" text] in
          Ok (history, build_messages role_text uid history)
      end
  end.

Definition ask (w : world) (uid : Z) (text : str) : world * result str :=
  match prepare w uid text with
  | Raise e => (w, Raise e)
  | Ok (history, messages) =>
      let w := log w (Requested messages) in
      match completion w messages with
      | Raise e => (w, Raise e)
      | Ok response_text =>
          let history := history ++ [mkRow uid "assistant" response_text] in
          match to_csv w history with
          | (w, Ok _) => (w, Ok response_text)
          | (w, Raise e) => (w, Raise e)
          end
      end
  end.

End Gpt.

(** ** smart_speaker.py: text_message *)

Module Arbiter.
Import Py.

Definition bytes := Capture.bytes.

(** What one turn can touch: the world of [ask], the capture switch of the
    ['Mic'] control with the arguments [setrec] received, the output file,
    the payloads handed to the player, the position of the capture switch
    each time the player was started, and the number of [time.sleep(0.1)]
    calls. *)
Record state : Type := mkState {
  gpt : Gpt.world;
  capture_enabled : bool;
  setrec_calls : list Z;
  output_file : option bytes;
  played : list bytes;
  capture_at_play : list bool;
  sleeps : nat
}.

(** The outcomes of the calls to the synthesis service, to ALSA and to
    pygame during one turn, one field per call site. *)
Record turn_env : Type := mkEnv {
  synthesize_speech : str -> result bytes;
  mixer_open : option exn;          (* alsaaudio.Mixer(...) before the mute *)
  mute : option exn;                (* mixer.setrec(0) *)
  file_write : option exn;          (* open(OUTPUT_FILE, "wb") and write *)
  music_load : option exn;
  music_play : option exn;
  music_busy : option exn;          (* pygame.mixer.music.get_busy() *)
  busy_polls : nat;                 (* times get_busy() is true *)
  unmute : option exn;              (* mixer.setrec(1) in [finally] *)
  mixer_reopen : option exn;        (* alsaaudio.Mixer(...) in the handler *)
  unmute_again : option exn         (* mixer.setrec(1) in the handler *)
}.

(** Computations over [state] that may raise. *)
Definition M (A : Type) : Type := state -> state * result A.

Definition ret (A : Type) (a : A) : M A := fun s => (s, Ok a).

Definition bind (A B : Type) (m : M A) (k : A -> M B) : M B :=
  fun s =>
    match m s with
    | (s', Ok a) => k a s'
    | (s', Raise e) => (s', Raise e)
    end.

(** [try: body finally: fin]: [fin] always runs; if it raises, its
    exception replaces the outcome of [body]. *)
Definition try_finally (A : Type) (body : M A) (fin : M unit) : M A :=
  fun s =>
    match body s with
    | (s1, r) =>
        match fin s1 with
        | (s2, Ok _) => (s2, r)
        | (s2, Raise e) => (s2, Raise e)
        end
    end.

(** [try: body except Exception as err: handler] *)
Definition try_except_Exception (A : Type)
    (body : M A) (handler : exn -> M A) : M A :=
  fun s =>
    match body s with
    | (s1, Raise e) =>
        if is_Exception e then handler e s1 else (s1, Raise e)
    | (s1, Ok a) => (s1, Ok a)
    end.

(** [try: body except: pass] *)
Definition try_except_pass (body : M unit) : M unit :=
  fun s =>
    match body s with
    | (s1, _) => (s1, Ok tt)
    end.

Declare Scope turn_scope.
Delimit Scope turn_scope with turn.
Notation "x <- m ;; k" := (bind m (fun x => k))
  (at level 61, m at next level, right associativity) : turn_scope.
Notation "m ;; k" := (bind m (fun _ => k))
  (at level 61, right associativity) : turn_scope.

(** An external call that changes the state when it succeeds. *)
Definition call (outcome : option exn) (effect : state -> state) : M unit :=
  fun s =>
    match outcome with
    | Some e => (s, Raise e)
    | None => (effect s, Ok tt)
    end.

Definition lift (A : Type) (r : result A) : M A := fun s => (s, r).

(** [mixer.setrec(v)]: the capture switch is on iff [v] is not zero. *)
Definition do_setrec (v : Z) (s : state) : state :=
  mkState (gpt s) (negb (Z.eqb v 0)) (setrec_calls s ++ [v])
          (output_file s) (played s) (capture_at_play s) (sleeps s).

Definition setrec (outcome : option exn) (v : Z) : M unit :=
  call outcome (do_setrec v).

Definition do_write (audio : bytes) (s : state) : state :=
  mkState (gpt s) (capture_enabled s) (setrec_calls s)
          (Some audio) (played s) (capture_at_play s) (sleeps s).

Definition do_play (s : state) : state :=
  mkState (gpt s) (capture_enabled s) (setrec_calls s) (output_file s)
          (played s ++ match output_file s with
                       | Some audio => [audio]
                       | None => []
                       end)
          (capture_at_play s ++ [capture_enabled s])
          (sleeps s).

Definition do_sleep (s : state) : state :=
  mkState (gpt s) (capture_enabled s) (setrec_calls s) (output_file s)
          (played s) (capture_at_play s) (S (sleeps s)).

(** [while pygame.mixer.music.get_busy(): time.sleep(0.1)] *)
Fixpoint wait_while_busy (polls : nat) : M unit :=
  match polls with
  | O => ret tt
  | S n => fun s => wait_while_busy n (do_sleep s)
  end.

(** [ask(111, message)], run on the world of [ask]. *)
Definition call_ask (uid : Z) (message : str) : M str :=
  fun s =>
    match Gpt.ask (gpt s) uid message with
    | (w, r) =>
        (mkState w (capture_enabled s) (setrec_calls s) (output_file s)
                 (played s) (capture_at_play s) (sleeps s), r)
    end.

Local Open Scope turn_scope.

Definition text_message (env : turn_env) (message : str) : M unit :=
  try_except_Exception
    (response <- call_ask 111 message ;;
     audio <- lift (synthesize_speech env response) ;;
     call (mixer_open env) (fun s => s) ;;
     try_finally
       (setrec (mute env) 0 ;;
        call (file_write env) (do_write audio) ;;
        call (music_load env) (fun s => s) ;;
        call (music_play env) do_play ;;
        call (music_busy env) (fun s => s) ;;
        wait_while_busy (busy_polls env))
       (setrec (unmute env) 1))
    (fun err =>
       try_except_pass
         (call (mixer_reopen env) (fun s => s) ;;
          setrec (unmute_again env) 1)).

End Arbiter.

(** ** smart_speaker.py: listen_print_loop *)

Module Segmenter.
Import Py.

Definition MIN_TEXT_LENGTH : Z := 3.
Definition PAUSE_TIME : Q := 3 # 2.

(** A streaming response of the recognizer, as far as the loop reads it. *)
Record alternative : Type := mkAlternative { transcript : str }.

Record recognition_result : Type := mkResult {
  alternatives : list alternative;
  is_final : bool
}.

Record response : Type := mkResponse { results : list recognition_result }.

(** The locals [last_text] and [last_time]. *)
Record locals : Type := mkLocals {
  last_text : str;
  last_time : Q
}.

(** Which branch of the loop body a response took. *)
Inductive verdict : Type :=
| NoResults                  (* [if not response.results: continue] *)
| NoAlternatives             (* [if not result.alternatives: continue] *)
| Interim                    (* not final *)
| Sent (text : str)          (* handed to [text_message] *)
| TooShort                   (* within the length test's [else] *)
| TooSoon.                   (* within the pause test's [else] *)

Section Regex.

(** [str.isalnum] of one code point outside ASCII (the Unicode
    database is not part of the program). *)
Variable unicode_alnum : char -> bool.

(** [\w] for a [str] pattern: alphanumeric or underscore. *)
Definition is_word (c : char) : bool :=
  (if c <? 128
   then (48 <=? c) && (c <=? 57) || (65 <=? c) && (c <=? 90)
        || (97 <=? c) && (c <=? 122) || (c =? 95)
   else unicode_alnum c)%N.

Definition word_before (prev : option char) : bool :=
  match prev with
  | Some c => is_word c
  | None => false
  end.

Definition word_after (s : str) : bool :=
  match s with
  | c :: _ => is_word c
  | [] => false
  end.

(** [\b]: exactly one side is a word character; the ends of the string
    count as non-word. *)
Definition at_boundary (prev : option char) (s : str) : bool :=
  xorb (word_before prev) (word_after s).

(** A lower-case ASCII letter [p] of the pattern against a character
    of the text under [re.I]: the letter, its capital and, for [i],
    [s] and [k], the extra code points the engine folds to them. *)
Definition ci_char (p c : char) : bool :=
  ((c =? p) || (c =? p - 32)
   || (p =? 105) && ((c =? 304) || (c =? 305))
   || (p =? 115) && (c =? 383)
   || (p =? 107) && (c =? 8490))%N.

(** A literal word of the pattern at the head of [s]: the last character
    consumed and the rest of the text. *)
Fixpoint literal (pat : str) (prev : option char) (s : str)
  : option (option char * str) :=
  match pat with
  | [] => Some (prev, s)
  | p :: pat' =>
      match s with
      | c :: s' => if ci_char p c then literal pat' (Some c) s' else None
      | [] => None
      end
  end.

Definition w_exit : str := [101; 120; 105; 116]%N.
Definition w_quit : str := [113; 117; 105; 116]%N.

(** One branch of the alternation followed by the closing [\b]. *)
Definition branch (pat : str) (prev : option char) (s : str) : bool :=
  match literal pat prev s with
  | Some (prev', s') => at_boundary prev' s'
  | None => false
  end.

(** [\b(exit|quit)\b] matched at the current position. *)
Definition match_here (prev : option char) (s : str) : bool :=
  at_boundary prev s && (branch w_exit prev s || branch w_quit prev s).

Fixpoint search_from (prev : option char) (s : str) : bool :=
  match_here prev s
  || match s with
     | [] => false
     | c :: s' => search_from (Some c) s'
     end.

(** Truth value of [re.search(r"\b(exit|quit)\b", transcript, re.I)]. *)
Definition re_search (transcript : str) : bool := search_from None transcript.

(** The loop calls [text_message] on some state [W]. *)
Variable W : Type.
Variable text_message : str -> W -> W.

(** One pass through the loop body for a response handled when the clock
    reads [now]: the locals, the state, the branch taken and whether the
    loop goes on ([false] after [break]). *)
Definition body (l : locals) (w : W) (r : response) (now : Q)
  : locals * W * verdict * bool :=
  match results r with
  | [] => (l, w, NoResults, true)
  | result :: _ =>
      match alternatives result with
      | [] => (l, w, NoAlternatives, true)
      | alt :: _ =>
          let transcript := strip (transcript alt) in
          let '(l', w', v) :=
            if is_final result then
              let current_time := now in
              if Qle_bool PAUSE_TIME (current_time - last_time l) then
                if (MIN_TEXT_LENGTH <=? len transcript)%Z
                   && negb (isspace transcript)
                then (mkLocals transcript current_time,
                      text_message transcript w, Sent transcript)
                else (l, w, TooShort)
              else (l, w, TooSoon)
            else (l, w, Interim)
          in
          (l', w', v, negb (re_search transcript))
      end
  end.

(** The [for] loop: the responses consumed are those that received a
    verdict. *)
Fixpoint loop (l : locals) (w : W) (responses : list (response * Q))
  : locals * W * list verdict :=
  match responses with
  | [] => (l, w, [])
  | (r, now) :: rest =>
      match body l w r now with
      | (l', w', v, go_on) =>
          if go_on then
            match loop l' w' rest with
            | (l'', w'', vs) => (l'', w'', v :: vs)
            end
          else (l', w', [v])
      end
  end.

(** [listen_print_loop(responses)], entered when the clock reads
    [start]. *)
Definition listen_print_loop (start : Q) (w : W)
    (responses : list (response * Q)) : locals * W * list verdict :=
  loop (mkLocals [] start) w responses.

End Regex.

(** The texts handed to [text_message], in order. *)
Fixpoint sent (vs : list verdict) : list str :=
  match vs with
  | [] => []
  | Sent text :: r => text :: sent r
  | _ :: r => sent r
  end.

End Segmenter.

(** ** Vocabulary of the properties *)

Module Spec.
Import Py.

(** [l1] is an initial segment of [l2]. *)
Definition is_prefix (A : Type) (l1 l2 : list A) : Prop :=
  exists r, l2 = l1 ++ r.

(** [l1] is a final segment of [l2]. *)
Definition is_suffix (A : Type) (l1 l2 : list A) : Prop :=
  exists older, l2 = older ++ l1.

(** The chunks waiting in a queue, sentinels left out. *)
Fixpoint queued (q : list Capture.item) : list Capture.bytes :=
  match q with
  | [] => []
  | Some chunk :: r => chunk :: queued r
  | None :: r => queued r
  end.

(** The chunks the generator has taken from the queue and not yet
    yielded. *)
Definition held (pc : Capture.gen_state) : list Capture.bytes :=
  match pc with
  | Capture.Drain data => data
  | _ => []
  end.

(** Every pushed chunk is either yielded, held or queued, in push order. *)
Definition accounted (s : Capture.system) (p : list Capture.bytes) : Prop :=
  match Capture.pc s with
  | Capture.Finished =>
      is_prefix (Capture.join (Capture.yielded s)) (Capture.join p)
  | _ =>
      Capture.join p
      = Capture.join (Capture.yielded s) ++ Capture.join (held (Capture.pc s))
        ++ Capture.join (queued (Capture._buff (Capture.stream s)))
  end.

(** The consumer has yielded all that was pushed and waits for more. *)
Definition drained (s : Capture.system) : Prop :=
  Capture._buff (Capture.stream s) = []
  /\ (Capture.pc s = Capture.LoopHead \/ Capture.pc s = Capture.BlockingGet).

(** The callback's way of ending a stream: a code other than
    [paContinue], the [closed] flag or the sentinel. *)
Definition treated_as_ended
    (after : Capture.MicrophoneStream) (code : Z) : Prop :=
  code = Capture.paComplete \/ code = Capture.paAbort
  \/ Capture.closed after = true
  \/ In None (Capture._buff after).

(** The most recent [n] entries of a chronological list, in chronological
    order. *)
Definition most_recent (n : nat) (A : Type) (l : list A) : list A :=
  rev (firstn n (rev l)).
Arguments most_recent n {A} l.

(** The stored turns that belong to a user, in the order of the table. *)
Fixpoint turns_of (uid : Z) (stored : list Gpt.row) : list Gpt.row :=
  match stored with
  | [] => []
  | r :: rest =>
      if Z.eq_dec (Gpt.user_id r) uid
      then r :: turns_of uid rest
      else turns_of uid rest
  end.

(** The entry of a request made of a turn: its role and its content. *)
Definition entry_of (r : Gpt.row) : Gpt.message :=
  Gpt.mkMessage (Gpt.role r) (Gpt.content r) None.

(** The fixed head of every request. *)
Definition fixed_prefix (role_text : str) : list Gpt.message :=
  [ Gpt.mkMessage "system" role_text (Some Gpt.TEMPERATURE);
    Gpt.mkMessage "user" [] None ].

(** The table a call of [ask] starts from and the role text it reads. *)
Definition loaded (w : Gpt.world) : list Gpt.row :=
  match Gpt.history_csv w with
  | Ok table => table
  | Raise _ => []
  end.

Definition role_text_of (w : Gpt.world) : str :=
  match Gpt.role_txt w with
  | Ok role_text => role_text
  | Raise _ => []
  end.

(** The same world with another state of the history file. *)
Definition with_history (w : Gpt.world) (h : result (list Gpt.row))
  : Gpt.world :=
  Gpt.mkWorld h (Gpt.role_txt w) (Gpt.completion w)
              (Gpt.csv_write w) (Gpt.csv_reread w) (Gpt.trace w).

(** In a trace, a table holding row [r] was saved before a request was
    issued. *)
Definition saved_before_request (tr : list Gpt.event) (r : Gpt.row) : Prop :=
  exists pre post messages table,
    tr = pre ++ Gpt.Requested messages :: post
    /\ In (Gpt.Saved table) pre /\ In r table.

(** The mixer calls of a turn all succeed. *)
Definition mixer_works (env : Arbiter.turn_env) : Prop :=
  Arbiter.mixer_open env = None /\ Arbiter.mute env = None
  /\ Arbiter.unmute env = None /\ Arbiter.mixer_reopen env = None
  /\ Arbiter.unmute_again env = None.

(** A call site fails, if at all, with an [Exception]. *)
Definition ordinary (outcome : option exn) : Prop :=
  match outcome with
  | Some e => is_Exception e = true
  | None => True
  end.

(** Whatever fails in the turn (the completion, the synthesis, the write
    of the file, the player) fails with an [Exception]. *)
Definition failures_are_exceptions
    (env : Arbiter.turn_env) (s : Arbiter.state) (message : str) : Prop :=
  (forall e, snd (Gpt.ask (Arbiter.gpt s) 111 message) = Raise e ->
             is_Exception e = true)
  /\ (forall text e, Arbiter.synthesize_speech env text = Raise e ->
                     is_Exception e = true)
  /\ ordinary (Arbiter.file_write env)
  /\ ordinary (Arbiter.music_load env)
  /\ ordinary (Arbiter.music_play env)
  /\ ordinary (Arbiter.music_busy env).

(** What the loop reads of a response: the stripped transcript of the
    first alternative of the first result, and whether it is final. *)
Definition reading (r : Segmenter.response) : option (str * bool) :=
  match Segmenter.results r with
  | [] => None
  | result :: _ =>
      match Segmenter.alternatives result with
      | [] => None
      | alt :: _ =>
          Some (strip (Segmenter.transcript alt), Segmenter.is_final result)
      end
  end.

(** The test that guards the call of [text_message]: final, pause
    elapsed since [last], long enough and not blank. *)
Definition passes_gate (last : Q) (t : str) (f : bool) (now : Q) : bool :=
  f && Qle_bool Segmenter.PAUSE_TIME (now - last)
  && (Segmenter.MIN_TEXT_LENGTH <=? len t)%Z && negb (isspace t).

(** No response of [pre] carries the exit word: the loop runs through. *)
Definition runs_through (unicode_alnum : char -> bool)
    (pre : list (Segmenter.response * Q)) : Prop :=
  forall r now t f,
    In (r, now) pre -> reading r = Some (t, f) ->
    Segmenter.re_search unicode_alnum t = false.

(** No response of [pre] is final. *)
Definition no_final (pre : list (Segmenter.response * Q)) : Prop :=
  forall r now t f, In (r, now) pre -> reading r = Some (t, f) -> f = false.

(** The clock reading the pause is measured from: that of the last
    response sent to the handler, or [start] when none was. *)
Fixpoint reference_time (start : Q) (clocks : list Q)
    (vs : list Segmenter.verdict) : Q :=
  match clocks, vs with
  | now :: clocks', Segmenter.Sent _ :: vs' => reference_time now clocks' vs'
  | _ :: clocks', _ :: vs' => reference_time start clocks' vs'
  | _, _ => start
  end.


Definition last_char (s : str) : option char :=
  match rev s with
  | c :: _ => Some c
  | [] => None
  end.


End Spec.

(** ** Data of the scenarios *)

Module Scenario.
Import Py.

(** A chunk of 10 bytes. *)
Definition chunk10 : Capture.bytes := repeat Byte.x00 10.

(** [paInputOverflow], a status flag that signals a device error. *)
Definition paInputOverflow : Z := 2.

(** Three chunks pushed and the stream closed before the consumer runs. *)
Definition close_first : list Capture.action :=
  [Capture.Callback chunk10 0; Capture.Callback chunk10 0;
   Capture.Callback chunk10 0; Capture.Exit]
  ++ repeat Capture.Next 6.

(** The consumer already waits in [get()] when the three chunks are pushed
    and the stream is closed. *)
Definition close_while_waiting : list Capture.action :=
  [Capture.Next; Capture.Callback chunk10 0; Capture.Callback chunk10 0;
   Capture.Callback chunk10 0; Capture.Exit]
  ++ repeat Capture.Next 6.

(** The consumer drains the three chunks before the stream is closed. *)
Definition drain_first : list Capture.action :=
  [Capture.Next; Capture.Callback chunk10 0; Capture.Callback chunk10 0;
   Capture.Callback chunk10 0; Capture.Next; Capture.Next; Capture.Next;
   Capture.Next].

(** "hi" and "hello". *)
Definition hi : str := [104; 105]%N.
Definition hello : str := [104; 101; 108; 108; 111]%N.

(** A backend that always answers "hello", and one that always fails. *)
Definition answering : list Gpt.message -> result str :=
  fun _ => Ok hello.
Definition failing : list Gpt.message -> result str :=
  fun _ => Raise OpenAIError.

(** A directory that can be written, and a file that pandas reads back as
    it wrote it. *)
Definition writable : result (list Gpt.row) -> list Gpt.row
                      -> option (exn * result (list Gpt.row)) :=
  fun _ _ => None.
Definition read_back : list Gpt.row -> result (list Gpt.row) :=
  fun table => Ok table.

(** A file that cannot be opened for writing: [to_csv] raises and the file
    is as before. *)
Definition write_denied : result (list Gpt.row) -> list Gpt.row
                          -> option (exn * result (list Gpt.row)) :=
  fun cur _ => Some (PermissionError, cur).

(** First run: no history file yet. *)
Definition first_run : Gpt.world :=
  Gpt.mkWorld (Raise FileNotFoundError) (Ok hello) answering
              writable read_back [].

(** A history file the process may neither read nor write. *)
Definition no_permission : Gpt.world :=
  Gpt.mkWorld (Raise PermissionError) (Ok hello) answering
              write_denied read_back [].

(** The history file exists and is empty (zero bytes): [pd.read_csv]
    raises [EmptyDataError]. *)
Definition empty_file : Gpt.world :=
  Gpt.mkWorld (Raise EmptyDataError) (Ok hello) answering
              writable read_back [].

(** A stored history and a backend that fails. *)
Definition backend_down : Gpt.world :=
  Gpt.mkWorld (Ok [Gpt.mkRow 111 "user" hi; Gpt.mkRow 111 "assistant" hello])
              (Ok hello) failing writable read_back [].

(** The transcripts of the scenarios, as code points. *)
Definition privet : str := [1087; 1088; 1080; 1074; 1077; 1090]%N.
Definition kak_dela : str :=
  [1082; 1072; 1082; 32; 1076; 1077; 1083; 1072]%N.
Definition poka_exit : str :=
  [1087; 1086; 1082; 1072; 44; 32; 101; 120; 105; 116]%N.

(** A response with one result and one alternative. *)
Definition heard (text : str) (final : bool) : Segmenter.response :=
  Segmenter.mkResponse
    [Segmenter.mkResult [Segmenter.mkAlternative text] final].

(** The three finals of the segmentation scenario with their clock
    readings. *)
Definition three_finals : list (Segmenter.response * Q) :=
  [(heard privet true, 0); (heard privet true, 1 # 2);
   (heard kak_dela true, 2)].

(** Cyrillic letters are alphanumeric; that is all of the Unicode table
    the scenarios need. *)
Definition cyrillic_alnum (c : char) : bool :=
  ((1024 <=? c) && (c <=? 1279))%N.

(** A handler that records the texts it receives. *)
Definition record_text (text : str) (w : list str) : list str := w ++ [text].

(** Mixer and player work; the synthesis returns ten bytes or fails. *)
Definition healthy : Arbiter.turn_env :=
  Arbiter.mkEnv (fun _ => Ok chunk10) None None None None None None 3
                None None None.
Definition synthesis_down : Arbiter.turn_env :=
  Arbiter.mkEnv (fun _ => Raise GoogleAPIError) None None None None None
                None 3 None None None.
Definition disk_full : Arbiter.turn_env :=
  Arbiter.mkEnv (fun _ => Ok chunk10) None None (Some PermissionError)
                None None None 3 None None None.
Definition player_down : Arbiter.turn_env :=
  Arbiter.mkEnv (fun _ => Ok chunk10) None None None None
                (Some PygameError) None 3 None None None.

(** Before a turn: capture enabled, nothing played. *)
Definition listening : Arbiter.state :=
  Arbiter.mkState first_run true [] None [] [] 0.

(** Eight stored turns of user 111, lettered a to h, and one of user 7. *)
Definition eight_turns : list Gpt.row :=
  [ Gpt.mkRow 111 "user" [97]%N; Gpt.mkRow 111 "assistant" [98]%N;
    Gpt.mkRow 111 "user" [99]%N; Gpt.mkRow 111 "assistant" [100]%N;
    Gpt.mkRow 7 "user" [120]%N;
    Gpt.mkRow 111 "user" [101]%N; Gpt.mkRow 111 "assistant" [102]%N;
    Gpt.mkRow 111 "user" [103]%N; Gpt.mkRow 111 "assistant" [104]%N ].

Definition eight_stored : Gpt.world :=
  Gpt.mkWorld (Ok eight_turns) (Ok hello) answering writable read_back [].

(** Nine turns of user 111 interleaved with turns of user 7. *)
Definition long_history : list Gpt.row :=
  [ Gpt.mkRow 111 "user" [49]%N; Gpt.mkRow 111 "assistant" [50]%N;
    Gpt.mkRow 7 "user" [120]%N;
    Gpt.mkRow 111 "user" [51]%N; Gpt.mkRow 111 "assistant" [52]%N;
    Gpt.mkRow 111 "user" [53]%N; Gpt.mkRow 111 "assistant" [54]%N;
    Gpt.mkRow 7 "assistant" [121]%N;
    Gpt.mkRow 111 "user" [55]%N; Gpt.mkRow 111 "assistant" [56]%N;
    Gpt.mkRow 111 "user" [57]%N ].

End Scenario.

(** ** Vocabulary of further properties: the capture buffer *)

Module CaptureSpec.
Import Py.

(** The schedule never closes the stream. *)
Definition never_exits (sched : list Capture.action) : Prop :=
  ~ In Capture.Exit sched.

(** Chunk-level accounting: the blocks yielded so far are the joins of
    [groups], and the chunks pushed are those of the groups followed by the
    chunks held and queued (or more, once the generator has returned). *)
Definition grouped (s : Capture.system) (p : list Capture.bytes)
    (groups : list (list Capture.bytes)) : Prop :=
  Capture.yielded s = map Capture.join groups
  /\ Forall (fun g => g <> []) groups
  /\ match Capture.pc s with
     | Capture.Finished => Spec.is_prefix (concat groups) p
     | Capture.Drain data =>
         data <> []
         /\ p = concat groups ++ data
                ++ Spec.queued (Capture._buff (Capture.stream s))
     | _ => p = concat groups
                ++ Spec.queued (Capture._buff (Capture.stream s))
     end.

End CaptureSpec.

(** ** Vocabulary of further properties: the segmenter *)

Module SegmenterSpec.
Import Py.

(** The clock readings of the responses that were sent to the handler. *)
Fixpoint sent_clocks (clocks : list Q) (vs : list Segmenter.verdict)
  : list Q :=
  match clocks, vs with
  | now :: clocks', Segmenter.Sent _ :: vs' => now :: sent_clocks clocks' vs'
  | _ :: clocks', _ :: vs' => sent_clocks clocks' vs'
  | _, _ => []
  end.

(** Each reading is at least [PAUSE_TIME] after the one before it, the
    first one after [last]. *)
Fixpoint spaced (last : Q) (clocks : list Q) : Prop :=
  match clocks with
  | [] => True
  | now :: clocks' =>
      (Segmenter.PAUSE_TIME <= now - last)%Q /\ spaced now clocks'
  end.

(** [word] is what the engine accepts for the literal [pat] under
    [re.I]. *)
Definition ci_matches (pat word : str) : Prop :=
  Forall2 (fun p c => Segmenter.ci_char p c = true) pat word.

(** The text holds a whole word that the engine accepts for "exit" or
    "quit". *)
Definition matches_exit_word (unicode_alnum : char -> bool) (text : str)
  : Prop :=
  exists pre word post,
    text = pre ++ word ++ post
    /\ (ci_matches Segmenter.w_exit word \/ ci_matches Segmenter.w_quit word)
    /\ Segmenter.word_before unicode_alnum (Spec.last_char pre) = false
    /\ Segmenter.word_after unicode_alnum post = false.

End SegmenterSpec.

(** ** smart_speaker.py: listen_print_loop calling text_message *)

Module Session.
Import Py.

(** The dialog as the loop drives it: the state the turns act on, the
    outcome of the last turn and the number of turns taken.  An exception
    that [text_message] lets out is not an [Exception], so the handler of
    [listen_print_loop] does not catch it either: the loop is left and no
    further turn is taken. *)
Record dialog : Type := mkDialog {
  state : Arbiter.state;
  outcome : result unit;
  turns : nat
}.

(** The call [text_message(transcript)] of the loop body; [env_of n] gives
    the outcomes of the external calls of turn [n]. *)
Definition handler (env_of : nat -> Arbiter.turn_env) (text : str)
    (d : dialog) : dialog :=
  match outcome d with
  | Ok _ =>
      match Arbiter.text_message (env_of (turns d)) text (state d) with
      | (s, r) => mkDialog s r (S (turns d))
      end
  | Raise _ => d
  end.

(** [listen_print_loop(responses)] with the handler of the program. *)
Definition session (unicode_alnum : char -> bool)
    (env_of : nat -> Arbiter.turn_env) (start : Q) (s : Arbiter.state)
    (responses : list (Segmenter.response * Q))
  : Segmenter.locals * dialog * list Segmenter.verdict :=
  Segmenter.listen_print_loop unicode_alnum (handler env_of) start
                              (mkDialog s (Ok tt) 0) responses.

End Session.

(** ** Vocabulary of further properties: the session *)

Module SessionSpec.
Import Py.

(** Every external call of the turn fails, if at all, with an
    [Exception]. *)
Definition all_exceptions (env : Arbiter.turn_env) : Prop :=
  (forall text e, Arbiter.synthesize_speech env text = Raise e ->
                  is_Exception e = true)
  /\ Spec.ordinary (Arbiter.mixer_open env)
  /\ Spec.ordinary (Arbiter.mute env)
  /\ Spec.ordinary (Arbiter.file_write env)
  /\ Spec.ordinary (Arbiter.music_load env)
  /\ Spec.ordinary (Arbiter.music_play env)
  /\ Spec.ordinary (Arbiter.music_busy env)
  /\ Spec.ordinary (Arbiter.unmute env)
  /\ Spec.ordinary (Arbiter.mixer_reopen env)
  /\ Spec.ordinary (Arbiter.unmute_again env).

(** The role file is readable, the history file is readable or cannot be
    opened, every write of the history file succeeds, pandas can read back
    what it wrote (as some table), and the backend answers every
    request. *)
Definition always_answers (w : Gpt.world) : Prop :=
  (exists role_text, Gpt.role_txt w = Ok role_text)
  /\ (forall e, Gpt.history_csv w = Raise e -> is_OSError e = true)
  /\ (forall cur table, Gpt.csv_write w cur table = None)
  /\ (forall table, exists table', Gpt.csv_reread w table = Ok table')
  /\ (forall messages, exists reply, Gpt.completion w messages = Ok reply).

(** The tables saved along a trace, in order. *)
Fixpoint saved_tables (tr : list Gpt.event) : list (list Gpt.row) :=
  match tr with
  | [] => []
  | Gpt.Saved table :: rest => table :: saved_tables rest
  | Gpt.Requested _ :: rest => saved_tables rest
  end.

(** The two rows one exchange adds to the history of user 111. *)
Definition exchange_rows (exchange : str * str) : list Gpt.row :=
  [Gpt.mkRow 111 "user" (fst exchange);
   Gpt.mkRow 111 "assistant" (snd exchange)].

(** The table is some loaded table followed by the exchange about
    [text]. *)
Definition ends_with_exchange (text : str) (table : list Gpt.row) : Prop :=
  exists before reply, table = before ++ exchange_rows (text, reply).

End SessionSpec.

(** ** smart_speaker.py: initialize_audio, play_greeting *)

Module Startup.
Import Py.

(** The pygame mixer as [initialize_audio] sees it: the environment
    variable [SDL_AUDIODRIVER], whether the mixer is initialised, and the
    [init] calls that succeeded ([true] for [init(buffer=4096)], [false]
    for the plain [init()]). *)
Record audio : Type := mkAudio {
  sdl_audiodriver : option string;
  mixer_ready : bool;
  inits : list bool
}.

(** The outcomes of the pygame calls of [initialize_audio]. *)
Record audio_env : Type := mkAudioEnv {
  mixer_quit : option exn;          (* pygame.mixer.quit() *)
  mixer_pre_init : option exn;      (* pygame.mixer.pre_init(...) *)
  mixer_init : option exn;          (* pygame.mixer.init(buffer=4096) *)
  mixer_init_default : option exn   (* pygame.mixer.init() *)
}.

Definition initialize_audio (env : audio_env) (a : audio)
  : audio * result unit :=
  (* try: pygame.mixer.quit() except: pass *)
  let a :=
    match mixer_quit env with
    | None => mkAudio (sdl_audiodriver a) false (inits a)
    | Some _ => a
    end in
  (* os.environ['SDL_AUDIODRIVER'] = 'alsa' *)
  let a := mkAudio (Some "alsa"%string) (mixer_ready a) (inits a) in
  match
    match mixer_pre_init env with
    | Some e => Raise e
    | None =>
        match mixer_init env with
        | Some e => Raise e
        | None => Ok tt
        end
    end
  with
  | Ok _ => (mkAudio (sdl_audiodriver a) true (inits a ++ [true]), Ok tt)
  | Raise e =>
      if is_Exception e then
        (* pygame.mixer.init() in the handler *)
        match mixer_init_default env with
        | Some e' => (a, Raise e')
        | None =>
            (mkAudio (sdl_audiodriver a) true (inits a ++ [false]), Ok tt)
        end
      else (a, Raise e)
  end.

(** What [play_greeting] can raise: an exception of a library call, or the
    [UnboundLocalError] of reading the local [mixer] before it was
    assigned. *)
Inductive raised : Type :=
| Library (e : exn)
| UnboundLocalError.

Inductive ending : Type :=
| Returned
| Raised (r : raised).

(** The outcomes of the calls of [play_greeting]. *)
Record greeting_env : Type := mkGreetingEnv {
  wav_load : result Capture.bytes;  (* music.load("what_do_you_want.wav") *)
  greeting_mixer : option exn;      (* alsaaudio.Mixer(...) *)
  greeting_mute : option exn;       (* mixer.setrec(0) *)
  greeting_play : option exn;       (* pygame.mixer.music.play() *)
  greeting_busy : option exn;       (* pygame.mixer.music.get_busy() *)
  greeting_polls : nat;
  greeting_unmute : option exn      (* mixer.setrec(1) in [finally] *)
}.

Definition play_loaded (wav : Capture.bytes) (s : Arbiter.state)
  : Arbiter.state :=
  Arbiter.mkState (Arbiter.gpt s) (Arbiter.capture_enabled s)
                  (Arbiter.setrec_calls s) (Arbiter.output_file s)
                  (Arbiter.played s ++ [wav])
                  (Arbiter.capture_at_play s ++ [Arbiter.capture_enabled s])
                  (Arbiter.sleeps s).

(** The [try] block: the state, whether the local [mixer] got bound, and
    how the block ended. *)
Definition greeting_body (env : greeting_env) (wav : Capture.bytes)
    (s : Arbiter.state) : Arbiter.state * bool * result unit :=
  match greeting_mixer env with
  | Some e => (s, false, Raise e)
  | None =>
      match
        Arbiter.bind (Arbiter.setrec (greeting_mute env) 0) (fun _ =>
        Arbiter.bind (Arbiter.call (greeting_play env) (play_loaded wav))
          (fun _ =>
        Arbiter.bind (Arbiter.call (greeting_busy env) (fun s => s))
          (fun _ =>
        Arbiter.wait_while_busy (greeting_polls env)))) s
      with
      | (s', r) => (s', true, r)
      end
  end.

Definition play_greeting (env : greeting_env) (s : Arbiter.state)
  : Arbiter.state * ending :=
  match wav_load env with
  | Raise e => (s, Raised (Library e))
  | Ok wav =>
      match greeting_body env wav s with
      | (s1, mixer_bound, r) =>
          (* finally: mixer.setrec(1) *)
          if mixer_bound then
            match greeting_unmute env with
            | Some e => (s1, Raised (Library e))
            | None =>
                (Arbiter.do_setrec 1 s1,
                 match r with
                 | Ok _ => Returned
                 | Raise e => Raised (Library e)
                 end)
            end
          else (s1, Raised UnboundLocalError)
      end
  end.

End Startup.

(** * Part II: properties *)

(** ** The capture buffer *)

Module CaptureFacts.
Import Py Capture Spec.

Lemma run_app (s : system) (a b : list action) :
  run s (a ++ b) = run (run s a) b.
Proof. unfold run. apply fold_left_app. Qed.

Lemma pushed_app (a b : list action) :
  pushed (a ++ b) = pushed a ++ pushed b.
Proof.
  induction a as [|x a IH]; simpl; [reflexivity|].
  destruct x; simpl; rewrite IH; reflexivity.
Qed.

Lemma join_app (a b : list bytes) : join (a ++ b) = join a ++ join b.
Proof. unfold join. apply concat_app. Qed.

Lemma join_unit (c : bytes) : join [c] = c.
Proof. unfold join. simpl. apply app_nil_r. Qed.

Lemma queued_app (q1 q2 : list item) :
  queued (q1 ++ q2) = queued q1 ++ queued q2.
Proof.
  induction q1 as [|[c|] q1 IH]; simpl; rewrite ?IH; reflexivity.
Qed.

Lemma is_prefix_refl (A : Type) (l : list A) : is_prefix l l.
Proof. exists []. symmetry. apply app_nil_r. Qed.

Lemma is_prefix_app_r (A : Type) (l1 l2 r : list A) :
  is_prefix l1 l2 -> is_prefix l1 (l2 ++ r).
Proof. intros [x ->]. exists (x ++ r). symmetry. apply app_assoc. Qed.

Lemma is_prefix_app (A : Type) (l r : list A) : is_prefix l (l ++ r).
Proof. exists r. reflexivity. Qed.

Lemma queued_put (self : MicrophoneStream) (x : item) :
  queued (_buff (put self x)) = queued (_buff self) ++ queued [x].
Proof. unfold put, set_buff. simpl. apply queued_app. Qed.

(** A chunk pushed by the callback stays accounted for. *)
Lemma accounted_callback s p in_data status_flags :
  accounted s p ->
  accounted (act s (Callback in_data status_flags)) (p ++ [in_data]).
Proof.
  unfold accounted. destruct s as [self c y].
  destruct c; cbn [act pc yielded stream _fill_buffer fst held];
    intros H; rewrite join_app, join_unit;
    try (rewrite queued_put, join_app; cbn [queued];
         rewrite join_unit, H, <- ?app_assoc; reflexivity).
  now apply is_prefix_app_r.
Qed.

Lemma accounted_exit s p : accounted s p -> accounted (act s Exit) p.
Proof.
  unfold accounted. destruct s as [self c y].
  assert (Q : queued (_buff (__exit__ self)) = queued (_buff self)).
  { unfold __exit__. rewrite queued_put. simpl. apply app_nil_r. }
  destruct c; cbn [act pc yielded stream held]; intros H;
    rewrite ?Q; exact H.
Qed.

Lemma join_cons (c : bytes) (l : list bytes) : join (c :: l) = c ++ join l.
Proof. reflexivity. Qed.

Lemma accounted_next s p : accounted s p -> accounted (act s Next) p.
Proof.
  unfold accounted. destruct s as [self c y].
  cbn [act pc yielded stream].
  destruct c as [| |data|]; cbn [generator held].
  - destruct (closed self); cbn [pc yielded stream held]; intros H.
    + rewrite H. apply is_prefix_app.
    + exact H.
  - destruct (_buff self) as [|[chunk|] q] eqn:E;
      cbn [pc yielded stream held set_buff _buff queued]; intros H.
    + rewrite E. exact H.
    + rewrite H, join_cons, join_unit. reflexivity.
    + rewrite H. apply is_prefix_app.
  - destruct (_buff self) as [|[chunk|] q] eqn:E;
      cbn [pc yielded stream held set_buff _buff queued]; intros H.
    + rewrite E, H, join_app, join_unit. cbn [queued join concat].
      rewrite !app_nil_r. reflexivity.
    + rewrite H, join_app, join_unit, join_cons.
      rewrite <- !app_assoc. reflexivity.
    + rewrite H. apply is_prefix_app.
  - intros H. exact H.
Qed.

Lemma accounted_act s p a :
  accounted s p -> accounted (act s a) (p ++ pushed [a]).
Proof.
  destruct a; cbn [pushed]; rewrite ?app_nil_r.
  - apply accounted_callback.
  - apply accounted_exit.
  - apply accounted_next.
Qed.

Lemma accounted_run sched : forall s p,
  accounted s p -> accounted (run s sched) (p ++ pushed sched).
Proof.
  induction sched as [|a sched IH]; intros s p H.
  - cbn [run fold_left pushed]. rewrite app_nil_r. exact H.
  - replace (pushed (a :: sched)) with (pushed [a] ++ pushed sched)
      by (symmetry; apply (pushed_app [a] sched)).
    rewrite app_assoc. apply (IH (act s a)). now apply accounted_act.
Qed.

Lemma accounted_opened rate chunk : accounted (opened rate chunk) [].
Proof. reflexivity. Qed.

Lemma accounted_prefix s p :
  accounted s p -> is_prefix (join (yielded s)) (join p).
Proof.
  unfold accounted. destruct (pc s); intros H; try exact H;
    rewrite H; apply is_prefix_app.
Qed.

Lemma run_cons s a sched : run s (a :: sched) = run (act s a) sched.
Proof. reflexivity. Qed.

Lemma pushed_repeat_next n : pushed (repeat Next n) = [].
Proof. induction n; simpl; auto. Qed.

Lemma finished_next s : pc s = Finished -> act s Next = s.
Proof. destruct s as [self c y]. simpl. intros ->. reflexivity. Qed.

(** A generator that has returned stays so and yields nothing more. *)
Lemma finished_run s n : pc s = Finished -> run s (repeat Next n) = s.
Proof.
  intros H. induction n as [|n IH]; [reflexivity|].
  cbn [repeat]. rewrite run_cons, (finished_next s H). exact IH.
Qed.

(** Once the stream is closed and the sentinel is queued, the generator
    returns after at most one move per queued item and one more. *)
Lemma reaches_end (q : list item) : forall self c y n,
  _buff self = q -> closed self = true -> In None q ->
  (length q + 1 <= n)%nat ->
  pc (run (mkSystem self c y) (repeat Next n)) = Finished.
Proof.
  induction q as [|x q IH]; intros self c y n Hq Hc Hin Hn.
  { destruct Hin. }
  destruct n as [|n]; [simpl in Hn; lia|].
  cbn [repeat]. rewrite run_cons. cbn [act stream pc yielded].
  destruct c as [| |data|]; cbn [generator].
  - rewrite Hc. now rewrite (finished_run _ n).
  - rewrite Hq. destruct x as [chunk|].
    + apply IH; cbn [set_buff _buff closed]; auto.
      * destruct Hin as [Hin|Hin]; [discriminate|exact Hin].
      * simpl in Hn. lia.
    + now rewrite (finished_run _ n).
  - rewrite Hq. destruct x as [chunk|].
    + apply IH; cbn [set_buff _buff closed]; auto.
      * destruct Hin as [Hin|Hin]; [discriminate|exact Hin].
      * simpl in Hn. lia.
    + now rewrite (finished_run _ n).
  - now rewrite (finished_run _ n).
Qed.

Lemma buff_length_act s a :
  (length (_buff (stream (act s a))) <= length (_buff (stream s)) + 1)%nat.
Proof.
  destruct s as [self c y]. destruct a; cbn [act stream].
  - unfold _fill_buffer, put, set_buff. cbn [fst _buff].
    rewrite length_app. simpl. lia.
  - unfold __exit__, put, set_buff, set_closed. cbn [_buff].
    rewrite length_app. simpl. lia.
  - cbn [pc]. destruct c as [| |data|]; cbn [generator].
    + destruct (closed self); cbn [stream]; lia.
    + destruct (_buff self) as [|[chunk|] q] eqn:E;
        cbn [stream set_buff _buff]; rewrite ?E; simpl; lia.
    + destruct (_buff self) as [|[chunk|] q] eqn:E;
        cbn [stream set_buff _buff]; rewrite ?E; simpl; lia.
    + cbn [stream]. lia.
Qed.

Lemma buff_length_run sched : forall s,
  (length (_buff (stream (run s sched)))
   <= length (_buff (stream s)) + length sched)%nat.
Proof.
  induction sched as [|a sched IH]; intros s.
  - cbn [run fold_left length]. lia.
  - rewrite run_cons. cbn [length].
    specialize (IH (act s a)). pose proof (buff_length_act s a). lia.
Qed.

Lemma exit_closes s :
  closed (stream (act s Exit)) = true
  /\ In None (_buff (stream (act s Exit)))
  /\ length (_buff (stream (act s Exit))) = S (length (_buff (stream s))).
Proof.
  destruct s as [self c y]. cbn [act stream].
  unfold __exit__, put, set_buff, set_closed. cbn [_buff closed].
  repeat split.
  - apply in_or_app. right. now left.
  - rewrite length_app. simpl. lia.
Qed.

(** A close that finds the consumer waiting on an empty queue ends the
    generator without a further block. *)
Lemma drained_exit s n :
  drained s -> yielded (run (act s Exit) (repeat Next (S n))) = yielded s.
Proof.
  destruct s as [self c y]. intros [Hq Hpc]. cbn [stream pc] in Hq, Hpc.
  cbn [repeat]. rewrite run_cons. cbn [act stream pc yielded].
  destruct Hpc as [-> | ->]; cbn [generator].
  - unfold __exit__ at 1. cbn [put set_buff set_closed closed].
    now rewrite (finished_run _ n).
  - unfold __exit__ at 1. cbn [put set_buff set_closed closed _buff].
    rewrite Hq. cbn [app]. now rewrite (finished_run _ n).
Qed.

(** C1, as stated, fails: three chunks of 10 bytes are pushed and the
    stream is closed before the consumer reaches them; the generator then
    returns without yielding any block, so the 30 pushed bytes are not
    delivered. *)
Lemma close_first_yields_nothing :
  let s := run (opened 44100 4410) Scenario.close_first in
  pc s = Finished
  /\ yielded s = []
  /\ length (join (pushed Scenario.close_first)) = 30%nat
  /\ join (yielded s) <> join (pushed Scenario.close_first).
Proof.
  vm_compute. repeat split; try reflexivity. intros H; discriminate H.
Qed.

(** The same loss when the consumer is already blocked in [get()]: the
    drain loop meets the sentinel and returns with the chunks in hand. *)
Example close_while_waiting_yields_nothing :
  let s := run (opened 44100 4410) Scenario.close_while_waiting in
  pc s = Finished /\ yielded s = [].
Proof. vm_compute. split; reflexivity. Qed.

(** The scenario of the specification holds when the consumer drains the
    queue before the close: one block of 30 bytes, then the end. *)
Example drain_first_yields_one_block :
  let s := run (opened 44100 4410)
               (Scenario.drain_first ++ Exit :: repeat Next 2) in
  pc s = Finished /\ map (@length Byte.byte) (yielded s) = [30%nat].
Proof. vm_compute. split; reflexivity. Qed.

(** C1, amended: for every interleaving [before] of pushes and consumer
    moves followed by a close, the generator returns within
    [length before + 2] further moves and yields nothing after that; the
    blocks it yielded concatenate to an initial segment of the
    concatenation of the pushed chunks, in push order; up to the close every
    pushed chunk is yielded, held by the generator or queued, in push order;
    and when the consumer had drained the queue before the close, the blocks
    concatenate to exactly what was pushed. *)
Theorem generator_yields_fifo_prefix rate chunk (before : list action) k :
  let s0 := run (opened rate chunk) before in
  let s := run (opened rate chunk)
               (before ++ Exit :: repeat Next (length before + 2 + k)) in
  pc s = Finished
  /\ is_prefix (join (yielded s)) (join (pushed before))
  /\ (forall n, yielded (run s (repeat Next n)) = yielded s)
  /\ accounted s0 (pushed before)
  /\ (drained s0 -> join (yielded s) = join (pushed before)).
Proof.
  intros s0 s.
  assert (Hs : s = run (act s0 Exit) (repeat Next (length before + 2 + k))).
  { unfold s, s0. now rewrite run_app, run_cons. }
  assert (Hfin : pc s = Finished).
  { rewrite Hs. destruct (exit_closes s0) as (Hc & Hin & Hlen).
    destruct (act s0 Exit) as [self c y] eqn:E. cbn [stream] in *.
    apply (reaches_end (q := _buff self)); auto.
    rewrite Hlen. pose proof (buff_length_run before (opened rate chunk)).
    fold s0 in H. cbn in H. lia. }
  assert (Hacc : accounted s (pushed before)).
  { pose proof (accounted_run (before ++ Exit :: repeat Next
                                 (length before + 2 + k)) _ _
                  (accounted_opened rate chunk)) as H.
    fold s in H. cbn [app] in H.
    rewrite pushed_app in H. cbn [pushed] in H.
    now rewrite pushed_repeat_next, app_nil_r in H. }
  assert (Hacc0 : accounted s0 (pushed before)).
  { exact (accounted_run before _ _ (accounted_opened rate chunk)). }
  split; [exact Hfin|]. split; [now apply accounted_prefix|].
  split; [intros n; now rewrite finished_run|]. split; [exact Hacc0|].
  { intros Hd. rewrite Hs.
    replace (length before + 2 + k)%nat with (S (length before + 1 + k))
      by lia.
    rewrite (drained_exit _ Hd).
    pose proof Hacc0 as H. cbn [app] in H. unfold accounted in H.
    destruct Hd as [Hq Hpc]. rewrite Hq in H.
    destruct Hpc as [Hpc|Hpc]; rewrite Hpc in H; cbn in H;
      rewrite H, ?app_nil_r; reflexivity. }
Qed.

(** The amended C1 at the drained schedule of the scenario. *)
Lemma generator_yields_fifo_prefix_witness :
  drained (run (opened 44100 4410) Scenario.drain_first)
  /\ join (yielded (run (opened 44100 4410)
                        (Scenario.drain_first
                         ++ Exit :: repeat Next (8 + 2 + 0))))
     = join (pushed Scenario.drain_first).
Proof.
  split.
  - vm_compute. split; [reflexivity | left; reflexivity].
  - apply (generator_yields_fifo_prefix 44100 4410 Scenario.drain_first 0).
    vm_compute. split; [reflexivity | left; reflexivity].
Defined.

(** C8, as stated, fails: called with the status flag [paInputOverflow],
    the callback returns [paContinue], leaves [closed] unset and enqueues
    the data and no sentinel, so the stream is not treated as ended. *)
Lemma fill_buffer_ignores_error_status :
  let '(after, (_, code)) :=
    _fill_buffer (__enter__ (__init__ 44100 4410)) Scenario.chunk10 4410 0
                 Scenario.paInputOverflow in
  Scenario.paInputOverflow <> 0%Z
  /\ code = paContinue
  /\ ~ treated_as_ended after code.
Proof.
  cbn. repeat split; try discriminate.
  intros [H | [H | [H | [H | []]]]]; discriminate H.
Qed.

(** C8, amended: for every invocation, whatever the status flags, the
    callback enqueues the data behind what is queued, returns
    [(None, paContinue)], a valid control code, and leaves [closed] as it
    was: the status flags are not read. *)
Theorem fill_buffer_always_continues
    self in_data frame_count time_info status_flags :
  let '(after, (out, code)) :=
    _fill_buffer self in_data frame_count time_info status_flags in
  out = None
  /\ code = paContinue
  /\ closed after = closed self
  /\ _buff after = _buff self ++ [Some in_data]
  /\ _fill_buffer self in_data frame_count time_info status_flags
     = _fill_buffer self in_data frame_count time_info 0.
Proof. cbn. repeat split. Qed.

End CaptureFacts.

(** ** The conversation context *)

Module GptFacts.
Import Py Gpt Spec.

Lemma tail_most_recent (A : Type) n (l : list A) : tail n l = most_recent n l.
Proof.
  unfold tail, most_recent. now rewrite firstn_rev, rev_involutive.
Qed.

Lemma tail_suffix (A : Type) n (l : list A) : is_suffix (tail n l) l.
Proof.
  exists (firstn (length l - n) l). symmetry. apply firstn_skipn.
Qed.

Lemma tail_length (A : Type) n (l : list A) :
  length (tail n l) = Nat.min n (length l).
Proof. unfold tail. rewrite length_skipn. lia. Qed.

Lemma tail_all (A : Type) n (l : list A) :
  (length l <= n)%nat -> tail n l = l.
Proof.
  intros H. unfold tail. replace (length l - n)%nat with 0%nat by lia.
  reflexivity.
Qed.

Lemma tail_last (A : Type) n (l : list A) x :
  tail (S n) (l ++ [x]) = tail n l ++ [x].
Proof.
  unfold tail. rewrite length_app. cbn [length].
  replace (length l + 1 - S n)%nat with (length l - n)%nat by lia.
  rewrite skipn_app.
  replace (length l - n - length l)%nat with 0%nat by lia.
  reflexivity.
Qed.

Lemma to_dict_records_length rows :
  length (to_dict_records rows) = length rows.
Proof. apply length_map. Qed.

(** The rows [ask] selects are the turns of the user, and the entries it
    makes of them carry their role and content. *)
Lemma rows_of_turns uid history : rows_of uid history = turns_of uid history.
Proof.
  induction history as [|r history IH]; [reflexivity|].
  unfold rows_of in *. cbn [filter turns_of]. rewrite IH.
  destruct (Z.eq_dec (user_id r) uid) as [E|E].
  - apply Z.eqb_eq in E. now rewrite E.
  - apply Z.eqb_neq in E. now rewrite E.
Qed.

Lemma turns_of_app uid h1 h2 :
  turns_of uid (h1 ++ h2) = turns_of uid h1 ++ turns_of uid h2.
Proof.
  induction h1 as [|r h1 IH]; [reflexivity|].
  cbn [app turns_of]. rewrite IH. now destruct (Z.eq_dec (user_id r) uid).
Qed.

Lemma turns_of_question uid text :
  turns_of uid [mkRow uid "user" text] = [mkRow uid "user" text].
Proof.
  cbn. destruct (Z.eq_dec uid uid) as [_|E]; [reflexivity|now contradiction E].
Qed.

Lemma to_dict_records_entries rows :
  to_dict_records rows = map entry_of rows.
Proof. reflexivity. Qed.

(** In [ask] the window is taken from the table in memory, which already
    ends with the user turn of the current call. *)
Lemma prepare_request w uid text history messages :
  prepare w uid text = Ok (history, messages) ->
  history = loaded w ++ [mkRow uid "user" text]
  /\ messages = build_messages (role_text_of w) uid history
  /\ (forall e, history_csv w = Raise e -> is_OSError e = true).
Proof.
  unfold prepare, loaded, role_text_of.
  destruct (history_csv w) as [table|e].
  - destruct (role_txt w) as [role_text|e']; [|discriminate].
    intros H. injection H as <- <-. repeat split. intros e He. discriminate.
  - destruct (is_OSError e) eqn:E; [|discriminate].
    destruct (role_txt w) as [role_text|e']; [|discriminate].
    intros H. injection H as <- <-. repeat split.
    intros e0 He. injection He as <-. exact E.
Qed.

Lemma prepare_ok w uid text role_text :
  (forall e, history_csv w = Raise e -> is_OSError e = true) ->
  role_txt w = Ok role_text ->
  prepare w uid text
  = Ok (loaded w ++ [mkRow uid "user" text],
        build_messages role_text uid (loaded w ++ [mkRow uid "user" text])).
Proof.
  intros Hh Hr. unfold prepare, loaded. rewrite Hr.
  destruct (history_csv w) as [table|e]; [reflexivity|].
  now rewrite (Hh e eq_refl).
Qed.

(** [ask] once the request is built. *)
Lemma ask_after_prepare w uid text history messages :
  prepare w uid text = Ok (history, messages) ->
  ask w uid text
  = match completion w messages with
    | Raise e => (log w (Requested messages), Raise e)
    | Ok reply =>
        let full := history ++ [mkRow uid "assistant" reply] in
        match csv_write w (history_csv w) full with
        | None =>
            (mkWorld (csv_reread w full) (role_txt w) (completion w)
                     (csv_write w) (csv_reread w)
                     (trace w ++ [Requested messages; Saved full]),
             Ok reply)
        | Some (e, after) =>
            (mkWorld after (role_txt w) (completion w)
                     (csv_write w) (csv_reread w)
                     (trace w ++ [Requested messages]),
             Raise e)
        end
    end.
Proof.
  intros Hp. unfold ask. rewrite Hp.
  change (completion (log w (Requested messages)) messages)
    with (completion w messages).
  destruct (completion w messages) as [reply|e]; [|reflexivity].
  unfold to_csv.
  change (csv_write (log w (Requested messages))
            (history_csv (log w (Requested messages))))
    with (csv_write w (history_csv w)).
  cbn zeta.
  destruct (csv_write w (history_csv w)
              (history ++ [mkRow uid "assistant" reply])) as [[e after]|].
  - reflexivity.
  - cbn. now rewrite <- app_assoc.
Qed.

(** Once the request is built, [ask] issues it, whatever follows. *)
Lemma ask_issues_request w uid text history messages :
  prepare w uid text = Ok (history, messages) ->
  exists rest,
    trace (fst (ask w uid text)) = trace w ++ Requested messages :: rest.
Proof.
  intros Hp. rewrite (@ask_after_prepare _ _ _ _ _ Hp).
  destruct (completion w messages) as [reply|e]; [|now exists []].
  cbn zeta.
  destruct (csv_write w (history_csv w)
              (history ++ [mkRow uid "assistant" reply])) as [[e after]|];
    cbn [fst trace]; now eexists.
Qed.

(** C4, as stated, fails: with exactly [HISTORY_LENGTH] stored turns of
    user 111 (and one of another user), the request [ask] issues holds the
    two fixed entries, the seven most recent stored turns and the question:
    the oldest stored turn of the user is not in it, although the user has
    no more than [HISTORY_LENGTH] stored turns. *)
Lemma oldest_stored_turn_is_dropped :
  let stored := Scenario.eight_turns in
  let oldest := mkRow 111 "user" [97]%N in
  (length (turns_of 111 stored) <= HISTORY_LENGTH)%nat
  /\ In oldest (turns_of 111 stored)
  /\ exists messages saved,
       trace (fst (ask Scenario.eight_stored 111 Scenario.hi))
       = [Requested messages; Saved saved]
       /\ length messages = 10%nat
       /\ ~ In (entry_of oldest) messages.
Proof.
  cbn zeta. split; [vm_compute; lia|]. split; [now left|].
  eexists _, _. split; [reflexivity|]. split; [reflexivity|].
  cbn. intros H.
  repeat (destruct H as [H|H]; [discriminate H|]). exact H.
Qed.

(** C4, amended: when the history file is readable (or missing) and the
    role file is readable, the request [ask] builds and issues is the fixed
    system and placeholder entries followed by the entries (role and
    content) of the most recent [HISTORY_LENGTH] turns among the stored
    turns of that user and the question of the call, in the order of the
    table.  With fewer than [HISTORY_LENGTH] stored turns of the user all
    of them appear, followed by the question; otherwise exactly the most
    recent [HISTORY_LENGTH - 1] stored turns of the user do, followed by the
    question. *)
Theorem request_window w uid text role_text :
  (forall e, history_csv w = Raise e -> is_OSError e = true) ->
  role_txt w = Ok role_text ->
  let question := mkRow uid "user" text in
  let turns := turns_of uid (loaded w) in
  let window := most_recent HISTORY_LENGTH (turns ++ [question]) in
  let messages := fixed_prefix role_text ++ map entry_of window in
  prepare w uid text = Ok (loaded w ++ [question], messages)
  /\ (exists rest,
        trace (fst (ask w uid text)) = trace w ++ Requested messages :: rest)
  /\ is_suffix window (turns ++ [question])
  /\ ((length turns < HISTORY_LENGTH)%nat -> window = turns ++ [question])
  /\ ((HISTORY_LENGTH <= length turns)%nat ->
      window = most_recent (HISTORY_LENGTH - 1) turns ++ [question]).
Proof.
  intros Hh Hr question turns window messages.
  assert (Hp : prepare w uid text = Ok (loaded w ++ [question], messages)).
  { rewrite (@prepare_ok w uid text role_text Hh Hr). unfold messages, window, turns.
    unfold build_messages. fold question.
    rewrite rows_of_turns, turns_of_app, to_dict_records_entries.
    unfold question at 2. rewrite turns_of_question, tail_most_recent.
    reflexivity. }
  split; [exact Hp|]. split; [exact (@ask_issues_request _ _ _ _ _ Hp)|].
  unfold window. rewrite <- !tail_most_recent.
  split; [apply tail_suffix|]. split.
  - intros Hlt. apply tail_all. rewrite length_app. cbn [length].
    unfold HISTORY_LENGTH in *. lia.
  - intros _. unfold HISTORY_LENGTH. cbn [Nat.sub]. apply tail_last.
Qed.

(** The amended C4 on the table of eight stored turns: the request is
    issued and its window is the last seven stored turns of the user and
    the question. *)
Lemma request_window_witness :
  (forall e, history_csv Scenario.eight_stored = Raise e ->
             is_OSError e = true)
  /\ role_txt Scenario.eight_stored = Ok Scenario.hello
  /\ (HISTORY_LENGTH <= length (turns_of 111 Scenario.eight_turns))%nat
  /\ most_recent HISTORY_LENGTH
       (turns_of 111 Scenario.eight_turns ++ [mkRow 111 "user" Scenario.hi])
     = most_recent (HISTORY_LENGTH - 1) (turns_of 111 Scenario.eight_turns)
       ++ [mkRow 111 "user" Scenario.hi].
Proof.
  assert (Hh : forall e, history_csv Scenario.eight_stored = Raise e ->
                         is_OSError e = true)
    by (intros e H; discriminate H).
  assert (Hl : (HISTORY_LENGTH <= length (turns_of 111 Scenario.eight_turns))
               %nat)
    by (vm_compute; lia).
  split; [exact Hh|]. split; [reflexivity|]. split; [exact Hl|].
  exact (proj2 (proj2 (proj2 (proj2
           (@request_window Scenario.eight_stored 111 Scenario.hi
              Scenario.hello Hh eq_refl)))) Hl).
Defined.

(** C6, as stated, fails: on a first run with a backend that answers, the
    trace of [ask] is the request followed by one save; no table holding
    the user turn is saved before the request is issued. *)
Lemma user_turn_not_saved_before_request :
  let w' := fst (ask Scenario.first_run 111 Scenario.hi) in
  snd (ask Scenario.first_run 111 Scenario.hi) = Ok Scenario.hello
  /\ ~ saved_before_request (trace w') (mkRow 111 "user" Scenario.hi).
Proof.
  split; [reflexivity|].
  intros (pre & post & messages & table & Htr & Hin & _).
  cbn in Htr.
  destruct pre as [|a pre]; [destruct Hin|].
  destruct pre as [|b pre]; cbn in Htr.
  - inversion Htr.
  - inversion Htr as [[Ha Hb Hrest]]. destruct pre; discriminate Hrest.
Qed.

(** When the backend fails the user turn of the call is never saved at
    all. *)
Example user_turn_lost_when_backend_fails :
  ask Scenario.backend_down 111 Scenario.hi
  = (log Scenario.backend_down
         (Requested (build_messages Scenario.hello 111
                       (loaded Scenario.backend_down
                        ++ [mkRow 111 "user" Scenario.hi]))),
     Raise OpenAIError).
Proof. reflexivity. Qed.

(** C6, amended: a call of [ask] that returns a reply has issued the
    request first and then saved the full table once, with the user turn
    and the assistant turn appended together: the write of that table
    succeeded and the file is the one it made when [ask] returns. *)
Theorem ask_saves_once_after_reply w uid text w' reply :
  ask w uid text = (w', Ok reply) ->
  let asked := loaded w ++ [mkRow uid "user" text] in
  let full := asked ++ [mkRow uid "assistant" reply] in
  history_csv w' = csv_reread w full
  /\ trace w'
     = trace w ++ [Requested (build_messages (role_text_of w) uid asked);
                   Saved full]
  /\ csv_write w (history_csv w) full = None.
Proof.
  intros H asked full.
  destruct (prepare w uid text) as [[history messages]|e0] eqn:Hp;
    [|unfold ask in H; rewrite Hp in H; discriminate H].
  destruct (prepare_request _ _ _ Hp) as (-> & -> & _).
  rewrite (@ask_after_prepare _ _ _ _ _ Hp) in H.
  destruct (completion w _) as [reply'|e1]; [|discriminate H].
  cbn zeta in H.
  destruct (csv_write w (history_csv w) _) as [[e2 after]|] eqn:Ew;
    [discriminate H|].
  injection H as <- <-. fold asked in Ew. fold full in Ew.
  split; [reflexivity|]. split; [reflexivity|exact Ew].
Qed.

(** The amended C6 on a first run. *)
Lemma ask_saves_once_after_reply_witness :
  trace (fst (ask Scenario.first_run 111 Scenario.hi))
  = [Requested (build_messages Scenario.hello 111
                  [mkRow 111 "user" Scenario.hi]);
     Saved [mkRow 111 "user" Scenario.hi;
            mkRow 111 "assistant" Scenario.hello]].
Proof.
  exact (proj1 (proj2
           (@ask_saves_once_after_reply Scenario.first_run 111 Scenario.hi
              (fst (ask Scenario.first_run 111 Scenario.hi)) Scenario.hello
              eq_refl))).
Defined.

(** C7, as stated, fails: with a history file of zero bytes the read
    raises [EmptyDataError], which is not an [OSError]; [ask] raises it and
    issues no request, where an empty history would have led to a reply. *)
Lemma unreadable_store_is_fatal :
  history_csv Scenario.empty_file = Raise EmptyDataError
  /\ ask Scenario.empty_file 111 Scenario.hi
     = (Scenario.empty_file, Raise EmptyDataError)
  /\ snd (ask (with_history Scenario.empty_file (Ok [])) 111 Scenario.hi)
     = Ok Scenario.hello.
Proof. repeat split. Qed.

(** A history file that may be neither read nor written: the read error
    is passed over and the request is issued, then the write raises. *)
Example denied_file_fails_at_the_write :
  snd (ask Scenario.no_permission 111 Scenario.hi) = Raise PermissionError
  /\ trace (fst (ask Scenario.no_permission 111 Scenario.hi))
     = [Requested (build_messages Scenario.hello 111
                     [mkRow 111 "user" Scenario.hi])].
Proof. split; reflexivity. Qed.

(** C7, amended: when the read of the history file raises an [OSError]
    (file missing, permission denied), the error is not raised: [ask] goes
    on from an empty table, builds the request from the user turn of the
    call alone and issues it when the role file is readable; when the
    backend answers, the call returns the reply if the history file can
    then be written, and raises the error of the write if it cannot.  When
    the read raises anything else, [ask] raises that exception and does
    nothing more. *)
Theorem store_read_error w uid text e :
  history_csv w = Raise e ->
  if is_OSError e then
    let question := mkRow uid "user" text in
    prepare w uid text = prepare (with_history w (Ok [])) uid text
    /\ forall role_text,
         role_txt w = Ok role_text ->
         let messages := build_messages role_text uid [question] in
         prepare w uid text = Ok ([question], messages)
         /\ (exists rest,
               trace (fst (ask w uid text))
               = trace w ++ Requested messages :: rest)
         /\ forall reply,
              completion w messages = Ok reply ->
              match csv_write w (Raise e)
                      [question; mkRow uid "assistant" reply] with
              | None => snd (ask w uid text) = Ok reply
              | Some (e', _) => snd (ask w uid text) = Raise e'
              end
  else ask w uid text = (w, Raise e).
Proof.
  intros H. destruct (is_OSError e) eqn:E.
  - intros question.
    split; [unfold prepare; cbn [with_history history_csv role_txt];
            now rewrite H, E|].
    intros role_text Hr messages.
    assert (Hp : prepare w uid text = Ok ([question], messages)).
    { unfold prepare. now rewrite H, E, Hr. }
    split; [exact Hp|]. split; [exact (@ask_issues_request _ _ _ _ _ Hp)|].
    intros reply Hc. rewrite (@ask_after_prepare _ _ _ _ _ Hp), Hc, H.
    cbn zeta. cbn [app].
    destruct (csv_write w (Raise e) [question; mkRow uid "assistant" reply])
      as [[e' after]|]; reflexivity.
  - unfold ask, prepare. rewrite H, E. reflexivity.
Qed.

(** The amended C7 on a first run: the missing file is read as an empty
    table, the request holds the question alone and is issued. *)
Lemma store_read_error_witness :
  history_csv Scenario.first_run = Raise FileNotFoundError
  /\ prepare Scenario.first_run 111 Scenario.hi
     = Ok ([mkRow 111 "user" Scenario.hi],
           build_messages Scenario.hello 111 [mkRow 111 "user" Scenario.hi]).
Proof.
  split; [reflexivity|].
  exact (proj1 (proj2 (@store_read_error Scenario.first_run 111 Scenario.hi
                         FileNotFoundError eq_refl)
                 Scenario.hello eq_refl)).
Defined.

(** C9: when the call to the completion backend raises, [ask] raises the
    same exception, the history file is as it was, and the trace gains
    the request and no save. *)
Theorem backend_error_leaves_store w uid text history messages e :
  prepare w uid text = Ok (history, messages) ->
  completion w messages = Raise e ->
  snd (ask w uid text) = Raise e
  /\ history_csv (fst (ask w uid text)) = history_csv w
  /\ trace (fst (ask w uid text)) = trace w ++ [Requested messages]
  /\ (forall table, ~ In (Saved table) [Requested messages]).
Proof.
  intros Hp Hc. rewrite (@ask_after_prepare _ _ _ _ _ Hp), Hc.
  repeat split. intros table [H|[]]. discriminate H.
Qed.

(** C9 with a stored history of two rows and a backend that fails. *)
Lemma backend_error_leaves_store_witness :
  snd (ask Scenario.backend_down 111 Scenario.hi) = Raise OpenAIError
  /\ history_csv (fst (ask Scenario.backend_down 111 Scenario.hi))
     = history_csv Scenario.backend_down.
Proof.
  destruct (@backend_error_leaves_store Scenario.backend_down 111 Scenario.hi
              (loaded Scenario.backend_down ++ [mkRow 111 "user" Scenario.hi])
              (build_messages Scenario.hello 111
                 (loaded Scenario.backend_down
                  ++ [mkRow 111 "user" Scenario.hi]))
              OpenAIError eq_refl eq_refl)
    as (H1 & H2 & _).
  split; assumption.
Defined.

(** Conversely, a save in the trace of a call means the backend
    answered. *)
Lemma saved_only_after_reply w uid text table :
  In (Saved table) (trace (fst (ask w uid text))) ->
  ~ In (Saved table) (trace w) ->
  exists reply, snd (ask w uid text) = Ok reply.
Proof.
  destruct (prepare w uid text) as [[history messages]|e] eqn:Hp.
  - rewrite (@ask_after_prepare _ _ _ _ _ Hp).
    destruct (completion w messages) as [reply|e].
    + cbn zeta.
      destruct (csv_write w (history_csv w) _) as [[e after]|].
      * cbn [fst trace]. intros Hin Hn. apply in_app_or in Hin.
        destruct Hin as [Hin|[Hin|[]]]; [contradiction|discriminate].
      * intros _ _. now exists reply.
    + cbn [fst log trace]. intros Hin Hn. apply in_app_or in Hin.
      destruct Hin as [Hin|[Hin|[]]]; [contradiction|discriminate].
  - unfold ask. rewrite Hp. cbn [fst]. intros Hin Hn. contradiction.
Qed.

End GptFacts.
(** ** The playback arbiter *)

Module ArbiterFacts.
Import Py Arbiter Spec.

(** Waiting for the end of the playback touches neither the capture switch
    nor the mixer. *)
Lemma wait_while_busy_ok polls : forall s,
  exists s',
    wait_while_busy polls s = (s', Ok tt)
    /\ capture_enabled s' = capture_enabled s
    /\ setrec_calls s' = setrec_calls s.
Proof.
  induction polls as [|n IH]; intros s.
  - exists s. repeat split.
  - destruct (IH (do_sleep s)) as (s' & H & Hc & Hr).
    exists s'. cbn [wait_while_busy]. rewrite H. repeat split; assumption.
Qed.

(** A second [setrec(1)] leaves the capture switch as the first left it. *)
Lemma unmute_idempotent s :
  capture_enabled (do_setrec 1 (do_setrec 1 s))
  = capture_enabled (do_setrec 1 s).
Proof. reflexivity. Qed.

(** The muted part of a turn followed by the [finally] clause. *)
Lemma muted_section env audio s :
  mute env = None -> unmute env = None ->
  exists s' r,
    try_finally
      (bind (setrec (mute env) 0) (fun _ =>
       bind (call (file_write env) (do_write audio)) (fun _ =>
       bind (call (music_load env) (fun s => s)) (fun _ =>
       bind (call (music_play env) do_play) (fun _ =>
       bind (call (music_busy env) (fun s => s)) (fun _ =>
       wait_while_busy (busy_polls env)))))))
      (setrec (unmute env) 1) s = (s', r)
    /\ capture_enabled s' = true
    /\ setrec_calls s' = setrec_calls s ++ [0; 1]%Z
    /\ (r = Ok tt
        \/ (exists e, r = Raise e
              /\ (file_write env = Some e \/ music_load env = Some e
                  \/ music_play env = Some e \/ music_busy env = Some e))).
Proof.
  intros Hm Hu. unfold try_finally, bind, setrec, call. rewrite Hm, Hu.
  destruct (file_write env) as [e|].
  { eexists _, _. split; [reflexivity|]. cbn.
    rewrite <- app_assoc. repeat split. right. exists e. auto. }
  destruct (music_load env) as [e|].
  { eexists _, _. split; [reflexivity|]. cbn.
    rewrite <- app_assoc. repeat split. right. exists e. auto. }
  destruct (music_play env) as [e|].
  { eexists _, _. split; [reflexivity|]. cbn.
    rewrite <- app_assoc. repeat split. right. exists e. auto. }
  destruct (music_busy env) as [e|].
  { eexists _, _. split; [reflexivity|]. cbn.
    rewrite <- app_assoc. repeat split. right. exists e. auto. }
  destruct (wait_while_busy_ok (busy_polls env)
              (do_play (do_write audio (do_setrec 0 s))))
    as (s1 & Hw & Hc & Hr).
  rewrite Hw. eexists _, _. split; [reflexivity|]. cbn.
  rewrite Hr. cbn. rewrite <- app_assoc. repeat split. now left.
Qed.

(** C3: in a turn whose mixer calls succeed and whose failures are
    [Exception]s (completion, synthesis, file write or player), whatever
    the capture state at entry, [text_message] returns normally with
    capture enabled.  The mixer received [setrec(1)] alone (failure before
    the mute), [setrec(0); setrec(1)] (normal playback) or
    [setrec(0); setrec(1); setrec(1)] (failure while muted): every mute is
    followed by an unmute inside the call, and the second unmute of the
    error path changes nothing. *)
Theorem text_message_restores_capture env message s :
  mixer_works env ->
  failures_are_exceptions env s message ->
  let '(s', r) := text_message env message s in
  r = Ok tt
  /\ capture_enabled s' = true
  /\ (exists calls,
        setrec_calls s' = setrec_calls s ++ calls
        /\ (calls = [1] \/ calls = [0; 1] \/ calls = [0; 1; 1])%Z)
  /\ capture_enabled (do_setrec 1 s') = capture_enabled s'.
Proof.
  intros (Ho & Hm & Hu & Hr & Hua) (Hask & Hsyn & Hw & Hl & Hp & Hb).
  unfold text_message, try_except_Exception.
  unfold bind at 1. unfold call_ask.
  destruct (Gpt.ask (gpt s) 111 message) as [w [response|e]] eqn:Eask.
  - unfold bind at 1. unfold lift.
    destruct (synthesize_speech env response) as [audio|e] eqn:Esyn.
    + unfold bind at 1. unfold call at 1. rewrite Ho.
      set (s1 := mkState w (capture_enabled s) (setrec_calls s)
                         (output_file s) (played s) (capture_at_play s)
                         (sleeps s)).
      destruct (muted_section env audio s1 Hm Hu)
        as (s2 & r & -> & Hc & Hcalls & Hres).
      destruct Hres as [-> | (e & -> & Hsite)].
      * repeat split; auto. exists [0; 1]%Z. auto.
      * assert (He : is_Exception e = true).
        { destruct Hsite as [H|[H|[H|H]]].
          - rewrite H in Hw. exact Hw.
          - rewrite H in Hl. exact Hl.
          - rewrite H in Hp. exact Hp.
          - rewrite H in Hb. exact Hb. }
        rewrite He. unfold try_except_pass, bind, call, setrec.
        rewrite Hr, Hua. cbn. repeat split.
        exists [0; 1; 1]%Z. rewrite Hcalls, <- app_assoc. auto.
    + rewrite (Hsyn _ _ Esyn).
      unfold try_except_pass, bind, call, setrec. rewrite Hr, Hua. cbn.
      repeat split. exists [1]%Z. auto.
  - rewrite (Hask e eq_refl).
    unfold try_except_pass, bind, call, setrec. rewrite Hr, Hua. cbn.
    repeat split. exists [1]%Z. auto.
Qed.

(** C3 when the write of the output file fails: unmuted twice, capture
    enabled. *)
Lemma text_message_restores_capture_witness :
  mixer_works Scenario.disk_full
  /\ failures_are_exceptions Scenario.disk_full Scenario.listening
                             Scenario.hi
  /\ capture_enabled
       (fst (text_message Scenario.disk_full Scenario.hi
                          Scenario.listening))
     = true.
Proof.
  assert (Hm : mixer_works Scenario.disk_full) by (repeat split).
  assert (Hf : failures_are_exceptions Scenario.disk_full Scenario.listening
                                       Scenario.hi)
    by (repeat split; try discriminate).
  split; [exact Hm|]. split; [exact Hf|].
  pose proof (@text_message_restores_capture Scenario.disk_full Scenario.hi
                Scenario.listening Hm Hf) as H.
  destruct (text_message Scenario.disk_full Scenario.hi Scenario.listening)
    as [s' r].
  exact (proj1 (proj2 H)).
Defined.

(** The mixer calls of the four outcomes. *)
Example setrec_calls_by_outcome :
  let calls env :=
    setrec_calls (fst (text_message env Scenario.hi Scenario.listening)) in
  calls Scenario.healthy = [0; 1]%Z
  /\ calls Scenario.synthesis_down = [1]%Z
  /\ calls Scenario.disk_full = [0; 1; 1]%Z
  /\ calls Scenario.player_down = [0; 1; 1]%Z.
Proof. vm_compute. repeat split. Qed.

End ArbiterFacts.

(** ** The transcript segmenter *)

Module SegmenterFacts.
Import Py Segmenter Spec.

Section Loop.

Variable unicode_alnum : char -> bool.
Variable W : Type.
Variable text_message : str -> W -> W.

Lemma body_unread l w r now :
  reading r = None ->
  exists v,
    body unicode_alnum text_message l w r now = (l, w, v, true)
    /\ sent [v] = [].
Proof.
  unfold reading, body.
  destruct (results r) as [|result ?].
  - intros _. exists NoResults. split; reflexivity.
  - destruct (alternatives result) as [|alt ?]; [|discriminate].
    intros _. exists NoAlternatives. split; reflexivity.
Qed.

Lemma body_read l w r now t f :
  reading r = Some (t, f) ->
  let pass := passes_gate (last_time l) t f now in
  exists v,
    body unicode_alnum text_message l w r now
    = (if pass then mkLocals t now else l,
       if pass then text_message t w else w,
       v, negb (re_search unicode_alnum t))
    /\ (pass = true -> v = Sent t)
    /\ (pass = false -> sent [v] = []).
Proof.
  unfold reading, body, passes_gate.
  destruct (results r) as [|result ?]; [discriminate|].
  destruct (alternatives result) as [|alt ?]; [discriminate|].
  intros H. injection H as <- <-.
  destruct (is_final result); cbn [andb].
  - destruct (Qle_bool PAUSE_TIME (now - last_time l)); cbn [andb].
    + destruct ((MIN_TEXT_LENGTH <=? len (strip (transcript alt)))%Z
                && negb (isspace (strip (transcript alt)))).
      * eexists. split; [reflexivity|]. split; [reflexivity|discriminate].
      * eexists. split; [reflexivity|]. split; [discriminate|reflexivity].
    + eexists. split; [reflexivity|]. split; [discriminate|reflexivity].
  - eexists. split; [reflexivity|]. split; [discriminate|reflexivity].
Qed.

Lemma sent_app vs1 vs2 : sent (vs1 ++ vs2) = sent vs1 ++ sent vs2.
Proof.
  induction vs1 as [|v vs1 IH]; [reflexivity|].
  destruct v; cbn [app sent]; rewrite IH; reflexivity.
Qed.

Lemma reference_time_app start clocks vs1 vs2 :
  length clocks = length vs1 ->
  reference_time start clocks (vs1 ++ vs2) = reference_time start clocks vs1.
Proof.
  revert start vs1. induction clocks as [|c clocks IH]; intros start vs1 H.
  - destruct vs1; [|discriminate]. destruct vs2; reflexivity.
  - destruct vs1 as [|v vs1]; [discriminate|]. injection H as H.
    destruct v; cbn [app reference_time]; now apply IH.
Qed.

(** While no response carries the exit word the loop consumes its input:
    one verdict per response, and [last_time] is the clock of the last
    response sent, or what it was. *)
Lemma loop_runs_through pre : forall l w rest,
  runs_through unicode_alnum pre ->
  exists l1 w1 vs1,
    loop unicode_alnum text_message l w pre = (l1, w1, vs1)
    /\ length vs1 = length pre
    /\ last_time l1 = reference_time (last_time l) (map snd pre) vs1
    /\ w1 = fold_left (fun w t => text_message t w) (sent vs1) w
    /\ loop unicode_alnum text_message l w (pre ++ rest)
       = (let '(l2, w2, vs2) :=
            loop unicode_alnum text_message l1 w1 rest in
          (l2, w2, vs1 ++ vs2)).
Proof.
  induction pre as [|[r now] pre IH]; intros l w rest Hrun.
  - exists l, w, []. cbn [loop app length map reference_time sent fold_left].
    repeat split. now destruct (loop unicode_alnum text_message l w rest)
      as [[l2 w2] vs2].
  - assert (Hpre : runs_through unicode_alnum pre).
    { intros r0 now0 t f Hin. apply (Hrun r0 now0 t f). now right. }
    cbn [loop app map snd].
    destruct (reading r) as [[t f]|] eqn:Er.
    + destruct (@body_read l w r now t f Er) as (v & -> & Hs & Hn).
      rewrite (Hrun r now t f (or_introl eq_refl) Er). cbn [negb].
      destruct (passes_gate (last_time l) t f now) eqn:Eg.
      * destruct (IH (mkLocals t now) (text_message t w) rest Hpre)
          as (l1 & w1 & vs1 & -> & Hlen & Hlast & Hw & ->).
        exists l1, w1, (v :: vs1). rewrite (Hs eq_refl).
        cbn [length reference_time sent fold_left].
        repeat split; auto.
        now destruct (loop unicode_alnum text_message l1 w1 rest)
          as [[l2 w2] vs2].
      * destruct (IH l w rest Hpre)
          as (l1 & w1 & vs1 & -> & Hlen & Hlast & Hw & ->).
        exists l1, w1, (v :: vs1). specialize (Hn eq_refl).
        cbn [length]. repeat split; auto.
        -- rewrite Hlast. destruct v; try reflexivity. discriminate Hn.
        -- replace (sent (v :: vs1)) with (sent [v] ++ sent vs1)
             by (symmetry; apply (sent_app [v] vs1)).
           now rewrite Hn.
        -- now destruct (loop unicode_alnum text_message l1 w1 rest)
             as [[l2 w2] vs2].
    + destruct (@body_unread l w r now Er) as (v & -> & Hn).
      destruct (IH l w rest Hpre)
        as (l1 & w1 & vs1 & -> & Hlen & Hlast & Hw & ->).
      exists l1, w1, (v :: vs1). cbn [length]. repeat split; auto.
      * rewrite Hlast. destruct v; try reflexivity. discriminate Hn.
      * replace (sent (v :: vs1)) with (sent [v] ++ sent vs1)
          by (symmetry; apply (sent_app [v] vs1)).
        now rewrite Hn.
      * now destruct (loop unicode_alnum text_message l1 w1 rest)
          as [[l2 w2] vs2].
Qed.

Lemma passes_gate_iff last t f now :
  passes_gate last t f now = true
  <-> f = true /\ (MIN_TEXT_LENGTH <= len t)%Z /\ isspace t = false
      /\ (PAUSE_TIME <= now - last)%Q.
Proof.
  unfold passes_gate.
  rewrite !andb_true_iff, Qle_bool_iff, Z.leb_le, negb_true_iff. tauto.
Qed.

Lemma not_sent v : sent [v] = [] -> forall t, v <> Sent t.
Proof. intros H t ->. discriminate H. Qed.

(** The handler is called on the texts of the [Sent] verdicts, in order. *)
Lemma loop_handler rs : forall l w,
  let '(_, w', vs) := loop unicode_alnum text_message l w rs in
  w' = fold_left (fun w t => text_message t w) (sent vs) w.
Proof.
  induction rs as [|[r now] rs IH]; intros l w; [reflexivity|].
  cbn [loop].
  assert (Hb : exists l1 w1 v go_on,
             body unicode_alnum text_message l w r now = (l1, w1, v, go_on)
             /\ w1 = fold_left (fun w t => text_message t w) (sent [v]) w).
  { destruct (reading r) as [[t f]|] eqn:Er.
    - destruct (@body_read l w r now t f Er) as (v & -> & Hs & Hn).
      eexists _, _, _, _. split; [reflexivity|].
      destruct (passes_gate (last_time l) t f now).
      + now rewrite (Hs eq_refl).
      + now rewrite (Hn eq_refl).
    - destruct (@body_unread l w r now Er) as (v & -> & Hn).
      eexists _, _, _, _. split; [reflexivity|]. now rewrite Hn. }
  destruct Hb as (l1 & w1 & v & go_on & -> & Hw1).
  destruct go_on; [|exact Hw1].
  specialize (IH l1 w1).
  destruct (loop unicode_alnum text_message l1 w1 rs) as [[l2 w2] vs].
  replace (sent (v :: vs)) with (sent [v] ++ sent vs)
    by (symmetry; apply (sent_app [v] vs)).
  now rewrite fold_left_app, <- Hw1.
Qed.

(** C2, amended: a response the loop reaches is sent to the handler if and
    only if it is final, its stripped transcript has at least
    [MIN_TEXT_LENGTH] characters and is not blank, and at least [PAUSE_TIME]
    has passed since the last response sent or, when none has been sent yet,
    since the loop started; the handler is called on exactly the responses
    sent, in order. *)
Theorem promotion_rule start w pre r now post :
  runs_through unicode_alnum pre ->
  let '(_, w', vs) :=
    listen_print_loop unicode_alnum text_message start w
                      (pre ++ (r, now) :: post) in
  let ref := reference_time start (map snd pre) vs in
  (forall t,
     nth_error vs (length pre) = Some (Sent t)
     <-> reading r = Some (t, true)
         /\ (MIN_TEXT_LENGTH <= len t)%Z /\ isspace t = false
         /\ (PAUSE_TIME <= now - ref)%Q)
  /\ w' = fold_left (fun w t => text_message t w) (sent vs) w.
Proof.
  intros Hrun. unfold listen_print_loop.
  pose proof (loop_handler (pre ++ (r, now) :: post) (mkLocals [] start) w)
    as Hh.
  destruct (@loop_runs_through pre (mkLocals [] start) w ((r, now) :: post)
              Hrun)
    as (l1 & w1 & vs1 & _ & Hlen & Hlast & _ & Happ).
  rewrite Happ in *. cbn [loop] in *. cbn [last_time] in Hlast.
  assert (Hv : exists l2 w2 v go_on,
             body unicode_alnum text_message l1 w1 r now
             = (l2, w2, v, go_on)
             /\ forall t,
                  v = Sent t
                  <-> reading r = Some (t, true)
                      /\ (MIN_TEXT_LENGTH <= len t)%Z /\ isspace t = false
                      /\ (PAUSE_TIME <= now - last_time l1)%Q).
  { destruct (reading r) as [[t0 f]|] eqn:Er.
    - destruct (@body_read l1 w1 r now t0 f Er) as (v & -> & Hs & Hn).
      eexists _, _, _, _. split; [reflexivity|]. intros t.
      destruct (passes_gate (last_time l1) t0 f now) eqn:Eg.
      + rewrite (Hs eq_refl).
        apply passes_gate_iff in Eg. destruct Eg as (-> & Hg).
        split.
        * intros H. injection H as <-. auto.
        * intros (H & _). injection H as <-. reflexivity.
      + split.
        * intros H. exfalso. exact (not_sent (Hn eq_refl) H).
        * intros (H & Hg). injection H as <- ->.
          assert (Et : passes_gate (last_time l1) t0 true now = true)
            by (apply passes_gate_iff; auto).
          rewrite Et in Eg. discriminate Eg.
    - destruct (@body_unread l1 w1 r now Er) as (v & -> & Hn).
      eexists _, _, _, _. split; [reflexivity|]. intros t. split.
      + intros H. exfalso. exact (not_sent Hn H).
      + intros (H & _). discriminate H. }
  destruct Hv as (l2 & w2 & v & go_on & Hb & Hiff). rewrite Hb in *.
  assert (Hnth : forall vs2, nth_error (vs1 ++ v :: vs2) (length pre) = Some v).
  { intros vs2. rewrite nth_error_app2 by lia.
    now replace (length pre - length vs1)%nat with 0%nat by lia. }
  assert (Href : forall vs2,
             reference_time start (map snd pre) (vs1 ++ v :: vs2)
             = last_time l1).
  { intros vs2. rewrite reference_time_app; [now symmetry|].
    now rewrite length_map. }
  destruct go_on.
  - destruct (loop unicode_alnum text_message l2 w2 post) as [[l3 w3] vs3].
    cbn zeta. split; [|exact Hh].
    intros t. rewrite Hnth, Href, <- Hiff.
    split; [intros H; now injection H|intros ->; reflexivity].
  - cbn zeta. split; [|exact Hh].
    intros t. rewrite Hnth, Href, <- Hiff.
    split; [intros H; now injection H|intros ->; reflexivity].
Qed.

(** A final handled before the pause has elapsed takes the [TooSoon]
    branch, whatever its text. *)
Lemma body_too_soon l w r now t :
  reading r = Some (t, true) ->
  (now - last_time l < PAUSE_TIME)%Q ->
  body unicode_alnum text_message l w r now
  = (l, w, TooSoon, negb (re_search unicode_alnum t)).
Proof.
  unfold reading, body.
  destruct (results r) as [|result ?]; [discriminate|].
  destruct (alternatives result) as [|alt ?]; [discriminate|].
  intros H Hlt. injection H as <- ->.
  destruct (Qle_bool PAUSE_TIME (now - last_time l)) eqn:E; [|reflexivity].
  apply Qle_bool_iff in E. exfalso. exact (Qlt_not_le _ _ Hlt E).
Qed.

(** Responses that are not final change nothing and send nothing. *)
Lemma loop_no_final pre : forall l w,
  runs_through unicode_alnum pre -> no_final pre ->
  exists vs1,
    loop unicode_alnum text_message l w pre = (l, w, vs1)
    /\ sent vs1 = [] /\ length vs1 = length pre.
Proof.
  induction pre as [|[r now] pre IH]; intros l w Hrun Hnf.
  - exists []. repeat split.
  - assert (Hpre : runs_through unicode_alnum pre).
    { intros r0 now0 t f Hin. apply (Hrun r0 now0 t f). now right. }
    assert (Hnf' : no_final pre).
    { intros r0 now0 t f Hin. apply (Hnf r0 now0 t f). now right. }
    destruct (IH l w Hpre Hnf') as (vs1 & Hl & Hs & Hlen).
    cbn [loop].
    destruct (reading r) as [[t f]|] eqn:Er.
    + destruct (@body_read l w r now t f Er) as (v & -> & _ & Hn).
      rewrite (Hrun r now t f (or_introl eq_refl) Er). cbn [negb].
      rewrite (Hnf r now t f (or_introl eq_refl) Er) in *.
      cbn [passes_gate andb] in *. rewrite Hl.
      exists (v :: vs1). repeat split.
      * replace (sent (v :: vs1)) with (sent [v] ++ sent vs1)
          by (symmetry; apply (sent_app [v] vs1)).
        now rewrite (Hn eq_refl), Hs.
      * cbn [length]. now rewrite Hlen.
    + destruct (@body_unread l w r now Er) as (v & -> & Hn).
      rewrite Hl. exists (v :: vs1). repeat split.
      * replace (sent (v :: vs1)) with (sent [v] ++ sent vs1)
          by (symmetry; apply (sent_app [v] vs1)).
        now rewrite Hn, Hs.
      * cbn [length]. now rewrite Hlen.
Qed.

(** C10: the pause is first measured from the start of the loop.  When
    the first final response is handled less than [PAUSE_TIME] after the
    start, it takes the [TooSoon] branch and nothing has been sent to the
    handler up to and including it, whatever its text. *)
Theorem first_final_within_pause_is_discarded start w pre r now post t :
  runs_through unicode_alnum pre ->
  no_final pre ->
  reading r = Some (t, true) ->
  (now - start < PAUSE_TIME)%Q ->
  let '(_, _, vs) :=
    listen_print_loop unicode_alnum text_message start w
                      (pre ++ (r, now) :: post) in
  nth_error vs (length pre) = Some TooSoon
  /\ sent (firstn (S (length pre)) vs) = [].
Proof.
  intros Hrun Hnf Hr Hlt. unfold listen_print_loop.
  destruct (@loop_runs_through pre (mkLocals [] start) w ((r, now) :: post)
              Hrun)
    as (l1 & w1 & vs1 & Hl & Hlen & _ & _ & ->).
  destruct (@loop_no_final pre (mkLocals [] start) w Hrun Hnf)
    as (vs1' & Hl' & Hs & _).
  rewrite Hl in Hl'. injection Hl' as -> -> <-.
  cbn [loop]. rewrite (@body_too_soon (mkLocals [] start) w r now t Hr Hlt).
  assert (H : forall vs2,
             nth_error (vs1 ++ TooSoon :: vs2) (length pre) = Some TooSoon
             /\ sent (firstn (S (length pre)) (vs1 ++ TooSoon :: vs2)) = []).
  { intros vs2. split.
    - rewrite nth_error_app2 by lia.
      now replace (length pre - length vs1)%nat with 0%nat by lia.
    - rewrite firstn_app.
      replace (S (length pre) - length vs1)%nat with 1%nat by lia.
      rewrite firstn_all2 by lia. cbn [firstn].
      now rewrite sent_app, Hs. }
  destruct (negb (re_search unicode_alnum t)).
  - destruct (loop unicode_alnum text_message (mkLocals [] start) w post)
      as [[l3 w3] vs3]. apply H.
  - apply H.
Qed.

Lemma last_char_cons c s :
  last_char (c :: s)
  = match last_char s with
    | Some d => Some d
    | None => Some c
    end.
Proof.
  unfold last_char. cbn [rev]. destruct (rev s); reflexivity.
Qed.

(** The search goes on to the right of a prefix it does not match in. *)
Lemma search_from_skip pre : forall prev s,
  search_from unicode_alnum
    (match last_char pre with
     | Some c => Some c
     | None => prev
     end) s = true ->
  search_from unicode_alnum prev (pre ++ s) = true.
Proof.
  induction pre as [|c pre IH]; intros prev s H.
  - exact H.
  - cbn [app search_from]. apply orb_true_iff. right.
    apply IH. rewrite last_char_cons in H.
    destruct (last_char pre); exact H.
Qed.

Lemma search_from_here prev s :
  match_here unicode_alnum prev s = true ->
  search_from unicode_alnum prev s = true.
Proof. intros H. destruct s; cbn [search_from]; now rewrite H. Qed.






Lemma lstrip_suffix s : exists ws, s = ws ++ lstrip s.
Proof.
  induction s as [|a s [ws IH]]; [now exists []|].
  cbn [lstrip]. destruct (is_whitespace a).
  - exists (a :: ws). cbn [app]. now rewrite <- IH.
  - now exists [].
Qed.


Lemma rstrip_prefix post : exists ws, post = rstrip post ++ ws.
Proof.
  unfold rstrip. destruct (lstrip_suffix (rev post)) as [ws H].
  exists (rev ws). rewrite <- rev_app_distr, <- H. now rewrite rev_involutive.
Qed.



End Loop.

(** C2, as stated, fails: the loop starts when the clock reads 0 and the
    three finals of the scenario are handled at 0, 0.5 and 2.0.  The first is
    final, has six characters, is not blank and no utterance was sent before
    it, yet it takes the [TooSoon] branch; only the third is sent, so one
    utterance is produced and not two. *)
Lemma scenario_from_start_sends_one :
  let '(_, w', vs) :=
    listen_print_loop Scenario.cyrillic_alnum Scenario.record_text 0 []
                      Scenario.three_finals in
  reading (Scenario.heard Scenario.privet true) = Some (Scenario.privet, true)
  /\ (MIN_TEXT_LENGTH <= len Scenario.privet)%Z
  /\ isspace Scenario.privet = false
  /\ vs = [TooSoon; TooSoon; Sent Scenario.kak_dela]
  /\ w' = [Scenario.kak_dela]
  /\ length (sent vs) <> 2%nat.
Proof. vm_compute. repeat split; discriminate. Qed.

(** The scenario gives its two utterances when the loop had started at
    least [PAUSE_TIME] before the first final. *)
Example scenario_after_pause_sends_two :
  let '(_, w', vs) :=
    listen_print_loop Scenario.cyrillic_alnum Scenario.record_text
                      (- (3 # 2)) [] Scenario.three_finals in
  vs = [Sent Scenario.privet; TooSoon; Sent Scenario.kak_dela]
  /\ w' = [Scenario.privet; Scenario.kak_dela].
Proof. vm_compute. split; reflexivity. Qed.

(** The amended C2 on the scenario started at 0: the handler received the
    texts of the verdicts [Sent]. *)
Lemma promotion_rule_witness :
  let run :=
    listen_print_loop Scenario.cyrillic_alnum Scenario.record_text 0 []
      ([(Scenario.heard Scenario.privet true, 0);
        (Scenario.heard Scenario.privet true, 1 # 2)]
       ++ (Scenario.heard Scenario.kak_dela true, 2) :: []) in
  runs_through Scenario.cyrillic_alnum
    [(Scenario.heard Scenario.privet true, 0);
     (Scenario.heard Scenario.privet true, 1 # 2)]
  /\ snd (fst run)
     = fold_left (fun w t => Scenario.record_text t w) (sent (snd run)) [].
Proof.
  intros run.
  assert (Hrun : runs_through Scenario.cyrillic_alnum
                   [(Scenario.heard Scenario.privet true, 0);
                    (Scenario.heard Scenario.privet true, 1 # 2)]).
  { intros r now t f [H|[H|[]]] Hr; injection H as <- <-;
      injection Hr as <- <-; reflexivity. }
  split; [exact Hrun|].
  pose proof (@promotion_rule Scenario.cyrillic_alnum (list str)
                Scenario.record_text 0 [] _
                (Scenario.heard Scenario.kak_dela true) 2 [] Hrun) as H.
  unfold run.
  destruct (listen_print_loop Scenario.cyrillic_alnum Scenario.record_text
              0 []
              ([(Scenario.heard Scenario.privet true, 0);
                (Scenario.heard Scenario.privet true, 1 # 2)]
               ++ (Scenario.heard Scenario.kak_dela true, 2) :: []))
    as [[l w'] vs].
  exact (proj2 H).
Defined.

(** C10 with an interim response at 0.25 and the first final at 1, the
    loop having started at 0. *)
Lemma first_final_within_pause_is_discarded_witness :
  let run :=
    listen_print_loop Scenario.cyrillic_alnum Scenario.record_text 0 []
      ([(Scenario.heard Scenario.privet false, 1 # 4)]
       ++ (Scenario.heard Scenario.privet true, 1) :: []) in
  (1 - 0 < PAUSE_TIME)%Q
  /\ nth_error (snd run) 1 = Some TooSoon.
Proof.
  intros run.
  assert (Hrun : runs_through Scenario.cyrillic_alnum
                   [(Scenario.heard Scenario.privet false, 1 # 4)]).
  { intros r now t f [H|[]] Hr; injection H as <- <-;
      injection Hr as <- <-; reflexivity. }
  assert (Hnf : no_final [(Scenario.heard Scenario.privet false, 1 # 4)]).
  { intros r now t f [H|[]] Hr; injection H as <- <-;
      injection Hr as <- <-; reflexivity. }
  assert (Hlt : (1 - 0 < PAUSE_TIME)%Q) by reflexivity.
  split; [exact Hlt|].
  pose proof (@first_final_within_pause_is_discarded
                Scenario.cyrillic_alnum (list str) Scenario.record_text 0 []
                _ (Scenario.heard Scenario.privet true) 1 [] Scenario.privet
                Hrun Hnf eq_refl Hlt) as H.
  unfold run.
  destruct (listen_print_loop Scenario.cyrillic_alnum Scenario.record_text
              0 []
              ([(Scenario.heard Scenario.privet false, 1 # 4)]
               ++ (Scenario.heard Scenario.privet true, 1) :: []))
    as [[l w'] vs].
  exact (proj1 H).
Defined.



(** A final "poka, exit" that passes the gate is sent to the handler
    first; the loop ends after it. *)
Example exit_word_after_dispatch :
  loop Scenario.cyrillic_alnum Scenario.record_text (mkLocals [] 0) []
       ((Scenario.heard Scenario.poka_exit true, 2) :: Scenario.three_finals)
  = (mkLocals Scenario.poka_exit 2, [Scenario.poka_exit],
     [Sent Scenario.poka_exit]).
Proof. reflexivity. Qed.

End SegmenterFacts.

(** ** Further properties of the capture buffer *)

Module CaptureMore.
Import Py Capture Spec CaptureSpec.

Lemma grouped_act s p groups a :
  grouped s p groups ->
  exists groups', grouped (act s a) (p ++ pushed [a]) groups'.
Proof.
  destruct s as [self c y]. unfold grouped. cbn [yielded pc stream].
  intros (Hy & Hne & Hp). destruct a as [in_data status_flags| |].
  - (* Callback *)
    exists groups. cbn [act pushed yielded pc stream _fill_buffer fst].
    split; [exact Hy|]. split; [exact Hne|].
    destruct c as [| |data|]; rewrite ?CaptureFacts.queued_put; cbn [queued].
    + rewrite Hp, <- app_assoc. reflexivity.
    + rewrite Hp, <- app_assoc. reflexivity.
    + destruct Hp as [Hd Hp]. split; [exact Hd|].
      rewrite Hp, <- !app_assoc. reflexivity.
    + now apply CaptureFacts.is_prefix_app_r.
  - (* Exit *)
    exists groups. cbn [act pushed yielded pc stream]. rewrite app_nil_r.
    split; [exact Hy|]. split; [exact Hne|].
    assert (Q : queued (_buff (__exit__ self)) = queued (_buff self)).
    { unfold __exit__. rewrite CaptureFacts.queued_put. simpl.
      apply app_nil_r. }
    destruct c; rewrite ?Q; exact Hp.
  - (* Next *)
    cbn [act pushed yielded pc stream]. rewrite app_nil_r.
    destruct c as [| |data|]; cbn [generator].
    + destruct (closed self); exists groups; cbn [yielded pc stream];
        (split; [exact Hy|]); (split; [exact Hne|]).
      * rewrite Hp. apply CaptureFacts.is_prefix_app.
      * exact Hp.
    + destruct (_buff self) as [|[chunk|] q] eqn:E; exists groups;
        cbn [yielded pc stream set_buff _buff];
        (split; [exact Hy|]); (split; [exact Hne|]).
      * rewrite E. exact Hp.
      * split; [discriminate|]. rewrite Hp. reflexivity.
      * rewrite Hp. apply CaptureFacts.is_prefix_app.
    + destruct Hp as [Hd Hp].
      destruct (_buff self) as [|[chunk|] q] eqn:E.
      * exists (groups ++ [data]). cbn [yielded pc stream].
        split; [now rewrite Hy, map_app|].
        split; [apply Forall_app; split; [exact Hne|now constructor]|].
        rewrite E, Hp, concat_app. cbn [concat queued].
        rewrite !app_nil_r. reflexivity.
      * exists groups. cbn [yielded pc stream set_buff _buff].
        split; [exact Hy|]. split; [exact Hne|].
        split; [now destruct data|].
        rewrite Hp. cbn [queued]. rewrite <- !app_assoc. reflexivity.
      * exists groups. cbn [yielded pc stream set_buff _buff].
        split; [exact Hy|]. split; [exact Hne|].
        rewrite Hp. apply CaptureFacts.is_prefix_app.
    + exists groups. cbn [yielded pc stream].
      split; [exact Hy|]. split; [exact Hne|]. exact Hp.
Qed.

Lemma grouped_run sched : forall s p groups,
  grouped s p groups ->
  exists groups', grouped (run s sched) (p ++ pushed sched) groups'.
Proof.
  induction sched as [|a sched IH]; intros s p groups H.
  - exists groups. cbn [run fold_left pushed]. now rewrite app_nil_r.
  - destruct (grouped_act a H) as [groups1 H1].
    destruct (IH _ _ _ H1) as [groups2 H2]. exists groups2.
    rewrite CaptureFacts.run_cons.
    replace (pushed (a :: sched)) with (pushed [a] ++ pushed sched)
      by (symmetry; apply (CaptureFacts.pushed_app [a] sched)).
    now rewrite app_assoc.
Qed.

(** X1: at any point of any interleaving, each block the generator has
    yielded is the join of one or more whole chunks, and the chunks of the
    blocks, taken in order, are an initial segment of the pushed chunks: no
    chunk is split between blocks, repeated or reordered, and no block is
    made of zero chunks. *)
Theorem blocks_are_whole_chunks rate chunk (sched : list action) :
  exists groups : list (list bytes),
    yielded (run (opened rate chunk) sched) = map join groups
    /\ Forall (fun g => g <> []) groups
    /\ is_prefix (concat groups) (pushed sched).
Proof.
  assert (H0 : grouped (opened rate chunk) [] []).
  { unfold grouped. cbn. repeat split. constructor. }
  destruct (grouped_run sched H0) as (groups & Hy & Hne & Hp).
  exists groups. split; [exact Hy|]. split; [exact Hne|].
  cbn [app] in Hp.
  destruct (pc (run (opened rate chunk) sched)).
  - rewrite Hp. apply CaptureFacts.is_prefix_app.
  - rewrite Hp. apply CaptureFacts.is_prefix_app.
  - destruct Hp as [_ Hp]. rewrite Hp. apply CaptureFacts.is_prefix_app.
  - exact Hp.
Qed.

(** While the stream is open and no sentinel is queued the generator has
    not returned. *)
Lemma open_stream_act s a :
  a <> Exit ->
  closed (stream s) = false -> ~ In None (_buff (stream s)) ->
  pc s <> Finished ->
  closed (stream (act s a)) = false
  /\ ~ In None (_buff (stream (act s a)))
  /\ pc (act s a) <> Finished.
Proof.
  destruct s as [self c y]. cbn [stream pc]. intros Ha Hc Hq Hpc.
  destruct a as [in_data status_flags| |]; [|contradiction|].
  - cbn [act stream pc _fill_buffer fst]. unfold put, set_buff.
    cbn [closed _buff]. repeat split; auto.
    intros H. apply in_app_or in H. destruct H as [H|[H|[]]];
      [contradiction|discriminate].
  - cbn [act stream pc]. destruct c as [| |data|]; cbn [generator].
    + rewrite Hc. cbn [stream pc]. repeat split; auto. discriminate.
    + destruct (_buff self) as [|[chunk|] q] eqn:E; cbn [stream pc].
      * rewrite E. repeat split; auto. 
      * unfold set_buff. cbn [closed _buff]. repeat split; auto.
        -- intros H. apply Hq. now right.
        -- discriminate.
      * exfalso. apply Hq. now left.
    + destruct (_buff self) as [|[chunk|] q] eqn:E; cbn [stream pc].
      * rewrite E. repeat split; auto. discriminate.
      * unfold set_buff. cbn [closed _buff]. repeat split; auto.
        -- intros H. apply Hq. now right.
        -- discriminate.
      * exfalso. apply Hq. now left.
    + contradiction.
Qed.

(** X2: the generator returns only after a close: along any schedule of
    pushes and consumer moves on an opened stream it has not returned,
    however long the queue stays empty. *)
Theorem generator_returns_only_after_close rate chunk (sched : list action) :
  never_exits sched ->
  pc (run (opened rate chunk) sched) <> Finished.
Proof.
  intros Hne.
  assert (H : forall s,
             closed (stream s) = false -> ~ In None (_buff (stream s)) ->
             pc s <> Finished ->
             pc (run s sched) <> Finished).
  { induction sched as [|a sched IH]; intros s Hc Hq Hpc; [exact Hpc|].
    rewrite CaptureFacts.run_cons.
    assert (Ha : a <> Exit) by (intros ->; apply Hne; now left).
    destruct (@open_stream_act s a Ha Hc Hq Hpc) as (Hc' & Hq' & Hpc').
    apply IH; auto. intros Hin. apply Hne. now right. }
  apply H; cbn; auto. discriminate.
Qed.

(** X2 on the schedule of the scenario in which the consumer drains the
    three chunks: it is back at the loop head, waiting for more. *)
Lemma generator_returns_only_after_close_witness :
  never_exits Scenario.drain_first
  /\ pc (run (opened 44100 4410) Scenario.drain_first) <> Finished.
Proof.
  assert (H : never_exits Scenario.drain_first).
  { unfold never_exits, Scenario.drain_first. cbn.
    intros [H|[H|[H|[H|[H|[H|[H|[H|[]]]]]]]]]; discriminate H. }
  split; [exact H|].
  exact (@generator_returns_only_after_close 44100 4410
           Scenario.drain_first H).
Defined.

Lemma set_buff_same self : set_buff self (_buff self) = self.
Proof. now destruct self. Qed.

(** The drain loop takes every queued chunk, then yields their join. *)
Lemma drain_takes_all rest : forall self data y,
  _buff self = map Some rest ->
  run (mkSystem self (Drain data) y) (repeat Next (length rest + 1))
  = mkSystem (set_buff self []) LoopHead (y ++ [join (data ++ rest)]).
Proof.
  induction rest as [|c rest IH]; intros self data y Hq.
  - cbn [length Nat.add repeat]. rewrite CaptureFacts.run_cons.
    cbn [act stream pc yielded generator]. cbn [map] in Hq.
    assert (Hs : set_buff self [] = self)
      by (destruct self; unfold set_buff; cbn in *; subst; reflexivity).
    rewrite Hq. cbn [run fold_left]. rewrite Hs, app_nil_r. reflexivity.
  - cbn [length Nat.add repeat]. rewrite CaptureFacts.run_cons.
    cbn [act stream pc yielded generator]. cbn [map] in Hq. rewrite Hq.
    rewrite (IH (set_buff self (map Some rest)) (data ++ [c]) y eq_refl).
    unfold set_buff. cbn [_rate _chunk closed].
    rewrite <- app_assoc. reflexivity.
Qed.

(** X3: a consumer blocked in [get()] that finds [chunks] queued, and is
    not overtaken by the producer while it drains, takes them all and yields
    a single block, their join in order; the queue is then empty and the
    generator is back at the loop head. *)
Theorem waiting_consumer_coalesces self (chunks : list bytes) y :
  chunks <> [] ->
  _buff self = map Some chunks ->
  run (mkSystem self BlockingGet y) (repeat Next (length chunks + 1))
  = mkSystem (set_buff self []) LoopHead (y ++ [join chunks]).
Proof.
  intros Hne Hq. destruct chunks as [|c rest]; [contradiction|].
  cbn [length Nat.add repeat]. rewrite CaptureFacts.run_cons.
  cbn [act stream pc yielded generator]. cbn [map] in Hq. rewrite Hq.
  rewrite (drain_takes_all rest (set_buff self (map Some rest)) [c] y eq_refl).
  reflexivity.
Qed.

(** X3 with the three chunks of ten bytes: one block of thirty bytes. *)
Lemma waiting_consumer_coalesces_witness :
  let self := set_buff (__enter__ (__init__ 44100 4410))
                (map Some [Scenario.chunk10; Scenario.chunk10;
                           Scenario.chunk10]) in
  yielded (run (mkSystem self BlockingGet []) (repeat Next (3 + 1)))
  = [join [Scenario.chunk10; Scenario.chunk10; Scenario.chunk10]].
Proof.
  intros self.
  pose proof (@waiting_consumer_coalesces self
                [Scenario.chunk10; Scenario.chunk10; Scenario.chunk10] [])
    as H.
  cbn [length] in H. rewrite H; [reflexivity|discriminate|reflexivity].
Defined.

(** Once it has returned, the generator stays so. *)
Lemma finished_stays sched : forall s,
  pc s = Finished -> pc (run s sched) = Finished.
Proof.
  induction sched as [|a sched IH]; intros s H; [exact H|].
  rewrite CaptureFacts.run_cons. apply IH.
  destruct s as [self c y]. cbn [pc] in H. subst c. now destruct a.
Qed.

(** On a closed stream a generator at the loop head yields nothing and
    returns at its first move. *)
Lemma closed_stream_act s a :
  closed (stream s) = true ->
  pc s = LoopHead \/ pc s = Finished ->
  closed (stream (act s a)) = true
  /\ yielded (act s a) = yielded s
  /\ (pc (act s a) = LoopHead \/ pc (act s a) = Finished)
  /\ (a = Next -> pc (act s a) = Finished).
Proof.
  destruct s as [self c y]. cbn [stream pc yielded]. intros Hc Hpc.
  destruct a as [in_data status_flags| |];
    cbn [act stream pc yielded _fill_buffer fst].
  - repeat split; auto. discriminate.
  - repeat split; auto. discriminate.
  - destruct Hpc as [->| ->]; cbn [generator]; rewrite ?Hc;
      cbn [stream pc yielded]; repeat split; auto.
Qed.

(** X4: a generator started on a stream whose [closed] flag is set (never
    entered, or already exited) yields nothing, whatever is pushed before or
    after it runs, and has returned as soon as it has moved once. *)
Theorem closed_stream_yields_nothing s (sched : list action) :
  closed (stream s) = true ->
  pc s = LoopHead \/ pc s = Finished ->
  yielded (run s sched) = yielded s
  /\ (In Next sched -> pc (run s sched) = Finished).
Proof.
  revert s. induction sched as [|a sched IH]; intros s Hc Hpc.
  - split; [reflexivity|intros []].
  - rewrite CaptureFacts.run_cons.
    destruct (@closed_stream_act s a Hc Hpc) as (Hc' & Hy' & Hpc' & Hnext).
    destruct (IH (act s a) Hc' Hpc') as [IHy IHp].
    split; [now rewrite IHy|].
    intros [Ha|Hin]; [|now apply IHp].
    apply finished_stays. now apply Hnext.
Qed.

(** X4 on a stream that was never entered, with three chunks pushed. *)
Lemma closed_stream_yields_nothing_witness :
  let s := mkSystem (__init__ 44100 4410) LoopHead [] in
  yielded (run s [Callback Scenario.chunk10 0; Next; Next;
                  Callback Scenario.chunk10 0; Next]) = [].
Proof.
  intros s.
  apply (@closed_stream_yields_nothing s
           [Callback Scenario.chunk10 0; Next; Next;
            Callback Scenario.chunk10 0; Next]).
  - reflexivity.
  - left. reflexivity.
Defined.

End CaptureMore.

(** ** Further properties of the conversation context *)

Module GptMore.
Import Py Gpt Spec.

(** X5: a call of [ask] that raises has saved nothing and issued at most
    one request; the history file is as it was, unless what failed is the
    write itself, after the reply: the file is then what the failed write
    left of it. *)
Theorem failed_ask_saves_nothing w uid text w' e :
  ask w uid text = (w', Raise e) ->
  (trace w' = trace w
   \/ exists messages, trace w' = trace w ++ [Requested messages])
  /\ (history_csv w' = history_csv w
      \/ exists reply after,
           csv_write w (history_csv w)
             (loaded w ++ [mkRow uid "user" text;
                           mkRow uid "assistant" reply])
           = Some (e, after)
           /\ history_csv w' = after).
Proof.
  destruct (prepare w uid text) as [[history messages]|e0] eqn:Hp.
  - rewrite (@GptFacts.ask_after_prepare _ _ _ _ _ Hp).
    destruct (GptFacts.prepare_request _ _ _ Hp) as (-> & _ & _).
    destruct (completion w messages) as [reply|e1].
    + cbn zeta. rewrite <- app_assoc. cbn [app].
      destruct (csv_write w (history_csv w) _) as [[e2 after]|] eqn:Ew;
        [|discriminate].
      intros H. injection H as <- <-. cbn [trace history_csv].
      split; [right; now exists messages|].
      right. now exists reply, after.
    + intros H. injection H as <- _. cbn [log trace history_csv].
      split; [right; now exists messages|now left].
  - unfold ask. rewrite Hp. intros H. injection H as <- _.
    split; now left.
Qed.

(** X5 on a file that cannot be written: the request was issued, nothing
    was saved. *)
Lemma failed_ask_saves_nothing_witness :
  snd (ask Scenario.no_permission 111 Scenario.hi) = Raise PermissionError
  /\ (trace (fst (ask Scenario.no_permission 111 Scenario.hi))
      = trace Scenario.no_permission
      \/ exists messages,
           trace (fst (ask Scenario.no_permission 111 Scenario.hi))
           = trace Scenario.no_permission ++ [Requested messages]).
Proof.
  split; [reflexivity|].
  exact (proj1 (@failed_ask_saves_nothing Scenario.no_permission 111
                  Scenario.hi
                  (fst (ask Scenario.no_permission 111 Scenario.hi))
                  PermissionError eq_refl)).
Defined.

Lemma rows_of_app uid h1 h2 :
  rows_of uid (h1 ++ h2) = rows_of uid h1 ++ rows_of uid h2.
Proof. apply filter_app. Qed.

Lemma rows_of_own uid role_name text :
  rows_of uid [mkRow uid role_name text] = [mkRow uid role_name text].
Proof. unfold rows_of. cbn. now rewrite Z.eqb_refl. Qed.

Lemma tail_snoc (A : Type) n (l : list A) x :
  tail (S n) (l ++ [x]) = tail n l ++ [x].
Proof.
  unfold tail. rewrite length_app. cbn [length].
  replace (length l + 1 - S n)%nat with (length l - n)%nat by lia.
  rewrite skipn_app.
  replace (length l - n - length l)%nat with 0%nat by lia.
  reflexivity.
Qed.

(** X7: the request [ask] builds for a question always starts with the
    system entry carrying the role text, ends with the question itself as a
    user entry, and has between three and ten entries, however long the
    stored history is. *)
Theorem request_shape role_text uid (history : list row) text :
  let messages :=
    build_messages role_text uid (history ++ [mkRow uid "user" text]) in
  hd_error messages = Some (mkMessage "system" role_text (Some TEMPERATURE))
  /\ last messages (mkMessage "" [] None) = mkMessage "user" text None
  /\ (3 <= length messages <= 2 + HISTORY_LENGTH)%nat.
Proof.
  intros messages. unfold messages, build_messages.
  rewrite rows_of_app, rows_of_own. unfold HISTORY_LENGTH at 1 2.
  rewrite tail_snoc. unfold to_dict_records. rewrite map_app. cbn [map].
  split; [reflexivity|]. split.
  - rewrite app_assoc. apply last_last.
  - rewrite !length_app, length_map, GptFacts.tail_length.
    rewrite length_app. cbn [length]. unfold HISTORY_LENGTH. lia.
Qed.

(** X8: the rows of other users do not influence the request: removing
    such a row from anywhere in the table leaves the request unchanged. *)
Theorem other_users_do_not_matter role_text uid h1 (r : row) h2 :
  user_id r <> uid ->
  build_messages role_text uid (h1 ++ r :: h2)
  = build_messages role_text uid (h1 ++ h2).
Proof.
  intros Hr. unfold build_messages.
  rewrite !rows_of_app. unfold rows_of at 2. cbn [filter].
  apply Z.eqb_neq in Hr. rewrite Hr. reflexivity.
Qed.

(** X8 on the table of the scenario: the first row of user 7 can go. *)
Lemma other_users_do_not_matter_witness :
  build_messages Scenario.hello 111 Scenario.long_history
  = build_messages Scenario.hello 111
      (firstn 2 Scenario.long_history ++ skipn 3 Scenario.long_history).
Proof.
  apply (@other_users_do_not_matter Scenario.hello 111
           (firstn 2 Scenario.long_history)
           (mkRow 7 "user" [120]%N)
           (skipn 3 Scenario.long_history)).
  discriminate.
Defined.

End GptMore.

(** ** Further properties of the playback arbiter *)

Module ArbiterMore.
Import Py Arbiter Spec.

(** Waiting for the end of the playback only counts the sleeps. *)
Lemma wait_while_busy_exact polls : forall s,
  wait_while_busy polls s
  = (mkState (gpt s) (capture_enabled s) (setrec_calls s) (output_file s)
             (played s) (capture_at_play s) (polls + sleeps s), Ok tt).
Proof.
  induction polls as [|n IH]; intros s.
  - now destruct s.
  - cbn [wait_while_busy]. rewrite IH. cbn. f_equal. f_equal. lia.
Qed.

(** X9: [text_message] never lets an [Exception] out: whatever fails in
    the turn, in the mixer calls as well, it returns normally or raises
    something that is not an [Exception]. *)
Theorem text_message_swallows_exceptions env message s :
  snd (text_message env message s) = Ok tt
  \/ exists e, snd (text_message env message s) = Raise e
               /\ is_Exception e = false.
Proof.
  unfold text_message, try_except_Exception.
  match goal with
  | |- context [match ?b s with _ => _ end] => destruct (b s) as [s1 [[]|e1]]
  end.
  - now left.
  - destruct (is_Exception e1) eqn:E.
    + unfold try_except_pass.
      match goal with
      | |- context [match ?b s1 with _ => _ end] => destruct (b s1)
      end.
      now left.
    + right. exists e1. split; [reflexivity|exact E].
Qed.

(** The turn up to the mute, for any outcome of the calls. *)
Ltac turn_cases env :=
  unfold text_message, try_except_Exception, try_finally, try_except_pass,
    bind, call_ask, lift, setrec, call;
  repeat match goal with
         | |- context [Gpt.ask ?w ?u ?m] =>
             let w' := fresh "w" in let r := fresh "reply" in
             let e := fresh "e" in let E := fresh "Eask" in
             destruct (Gpt.ask w u m) as [w' [r|e]] eqn:E
         | |- context [synthesize_speech env ?t] =>
             let a := fresh "audio" in let e := fresh "e" in
             let E := fresh "Esyn" in
             destruct (synthesize_speech env t) as [a|e] eqn:E
         | |- context [match ?f env with Some _ => _ | None => _ end] =>
             let e := fresh "e" in let E := fresh "E" in
             destruct (f env) as [e|] eqn:E
         | |- context [is_Exception ?e] =>
             let E := fresh "Eexn" in destruct (is_Exception e) eqn:E
         | |- context [wait_while_busy ?n ?s] =>
             rewrite (wait_while_busy_exact n s)
         end.

(** X10: when the mixer calls succeed, [text_message] ends with capture
    enabled, also when it raises; the one exception is a failure that is
    not an [Exception] and strikes before the mute, and then the mixer has
    not been touched at all. *)
Theorem text_message_never_leaves_muted env message s :
  mixer_works env ->
  let '(s', r) := text_message env message s in
  capture_enabled s' = true
  \/ (capture_enabled s' = capture_enabled s
      /\ setrec_calls s' = setrec_calls s
      /\ exists e, r = Raise e /\ is_Exception e = false).
Proof.
  intros (Ho & Hm & Hu & Hr & Hua).
  turn_cases env; try congruence; cbn;
    try (left; reflexivity);
    right; repeat split; eexists; split; (reflexivity || eassumption).
Qed.

(** X10 when the synthesis is interrupted from the keyboard: the mixer is
    not touched. *)
Lemma text_message_never_leaves_muted_witness :
  let env := mkEnv (fun _ => Raise KeyboardInterrupt) None None None None
                   None None 3 None None None in
  mixer_works env
  /\ let '(s', r) := text_message env Scenario.hi Scenario.listening in
     capture_enabled s' = true
     \/ (capture_enabled s' = capture_enabled Scenario.listening
         /\ setrec_calls s' = setrec_calls Scenario.listening
         /\ exists e, r = Raise e /\ is_Exception e = false).
Proof.
  intros env.
  assert (Hm : mixer_works env) by (repeat split).
  split; [exact Hm|].
  exact (@text_message_never_leaves_muted env Scenario.hi Scenario.listening
           Hm).
Defined.

(** X11: best effort only: when the mute succeeds, the unmute of the
    [finally] clause fails with an [Exception] and the second attempt in the
    handler fails too, [text_message] returns normally and the capture is
    left disabled. *)
Theorem failed_unmute_leaves_capture_off env message s w reply audio e :
  Gpt.ask (gpt s) 111 message = (w, Ok reply) ->
  synthesize_speech env reply = Ok audio ->
  mixer_open env = None -> mute env = None ->
  unmute env = Some e -> is_Exception e = true ->
  mixer_reopen env <> None \/ unmute_again env <> None ->
  let '(s', r) := text_message env message s in
  r = Ok tt
  /\ capture_enabled s' = false
  /\ setrec_calls s' = setrec_calls s ++ [0]%Z.
Proof.
  intros Hask Hsyn Ho Hm Hu He Hh.
  unfold text_message, try_except_Exception, try_finally, try_except_pass,
    bind, call_ask, lift, setrec, call.
  rewrite Hask, Hsyn, Ho, Hm, Hu.
  assert (Hh' : match mixer_reopen env, unmute_again env with
                | None, None => False
                | _, _ => True
                end).
  { destruct (mixer_reopen env), (unmute_again env); auto.
    destruct Hh as [H|H]; now apply H. }
  destruct (mixer_reopen env) as [e1|], (unmute_again env) as [e2|];
    try contradiction;
    repeat match goal with
           | |- context [match ?f env with Some _ => _ | None => _ end] =>
               destruct (f env)
           end;
    rewrite ?wait_while_busy_exact; cbn; rewrite He; cbn; auto.
Qed.

(** X11 with a mixer that accepts the mute and then fails. *)
Lemma failed_unmute_leaves_capture_off_witness :
  let env := mkEnv (fun _ => Ok Scenario.chunk10) None None None None None
                   None 3 (Some ALSAAudioError) (Some ALSAAudioError) None in
  capture_enabled (fst (text_message env Scenario.hi Scenario.listening))
  = false.
Proof.
  intros env.
  pose proof (@failed_unmute_leaves_capture_off env Scenario.hi
                Scenario.listening
                (fst (Gpt.ask Scenario.first_run 111 Scenario.hi))
                Scenario.hello Scenario.chunk10 ALSAAudioError
                eq_refl eq_refl eq_refl eq_refl eq_refl eq_refl
                (or_introl (fun H => eq_ind (Some ALSAAudioError)
                                       (fun o => match o with
                                                 | Some _ => True
                                                 | None => False
                                                 end) I None H))) as H.
  destruct (text_message env Scenario.hi Scenario.listening) as [s' r].
  exact (proj1 (proj2 H)).
Defined.


End ArbiterMore.

(** ** Further properties of the transcript segmenter *)

Module SegmenterMore.
Import Py Segmenter Spec SegmenterSpec.

Section Loop.

Variable unicode_alnum : char -> bool.
Variable W : Type.
Variable text_message : str -> W -> W.

(** The outcome of one pass, by cases on what the loop reads. *)
Lemma body_cases l w r now :
  match reading r with
  | None =>
      exists v,
        body unicode_alnum text_message l w r now = (l, w, v, true)
        /\ (forall t, v <> Sent t)
  | Some (t, f) =>
      if passes_gate (last_time l) t f now
      then body unicode_alnum text_message l w r now
           = (mkLocals t now, text_message t w, Sent t,
              negb (re_search unicode_alnum t))
      else exists v,
             body unicode_alnum text_message l w r now
             = (l, w, v, negb (re_search unicode_alnum t))
             /\ (forall t', v <> Sent t')
  end.
Proof.
  destruct (reading r) as [[t f]|] eqn:Er.
  - destruct (@SegmenterFacts.body_read unicode_alnum W text_message
                l w r now t f Er) as (v & Hb & Hs & Hn).
    destruct (passes_gate (last_time l) t f now).
    + now rewrite Hb, (Hs eq_refl).
    + exists v. split; [exact Hb|]. apply SegmenterFacts.not_sent. now apply Hn.
  - destruct (@SegmenterFacts.body_unread unicode_alnum W text_message
                l w r now Er) as (v & Hb & Hn).
    exists v. split; [exact Hb|]. now apply SegmenterFacts.not_sent.
Qed.

Lemma spaced_loop rs : forall l w,
  let '(_, _, vs) := loop unicode_alnum text_message l w rs in
  spaced (last_time l) (sent_clocks (map snd rs) vs).
Proof.
  induction rs as [|[r now] rs IH]; intros l w; [exact I|].
  cbn [loop map snd]. pose proof (body_cases l w r now) as Hb.
  destruct (reading r) as [[t f]|].
  - destruct (passes_gate (last_time l) t f now) eqn:Eg.
    + rewrite Hb. apply (@SegmenterFacts.passes_gate_iff W text_message) in Eg.
      destruct Eg as (_ & _ & _ & Hq).
      destruct (negb (re_search unicode_alnum t)).
      * specialize (IH (mkLocals t now) (text_message t w)).
        destruct (loop unicode_alnum text_message (mkLocals t now)
                       (text_message t w) rs) as [[l2 w2] vs].
        cbn [sent_clocks spaced]. split; [exact Hq|exact IH].
      * cbn [sent_clocks spaced]. split; [exact Hq|].
        now destruct (map snd rs).
    + destruct Hb as (v & -> & Hv).
      destruct (negb (re_search unicode_alnum t)).
      * specialize (IH l w).
        destruct (loop unicode_alnum text_message l w rs) as [[l2 w2] vs].
        destruct v; try exact IH. exfalso. now apply (Hv text).
      * destruct v; try (now destruct (map snd rs)).
        exfalso. now apply (Hv text).
  - destruct Hb as (v & -> & Hv).
    specialize (IH l w).
    destruct (loop unicode_alnum text_message l w rs) as [[l2 w2] vs].
    destruct v; try exact IH. exfalso. now apply (Hv text).
Qed.

(** X13: the handler is never called twice within [PAUSE_TIME]: in every
    run of the loop, the clock readings of the responses sent are at least
    [PAUSE_TIME] apart, the first one at least [PAUSE_TIME] after the
    start. *)
Theorem sent_are_spaced start w (responses : list (response * Q)) :
  let '(_, _, vs) :=
    listen_print_loop unicode_alnum text_message start w responses in
  spaced start (sent_clocks (map snd responses) vs).
Proof. exact (spaced_loop responses (mkLocals [] start) w). Qed.

Lemma sent_loop rs : forall l w,
  let '(_, _, vs) := loop unicode_alnum text_message l w rs in
  Forall (fun t => (MIN_TEXT_LENGTH <= len t)%Z
                   /\ exists r now,
                        In (r, now) rs /\ reading r = Some (t, true))
         (sent vs).
Proof.
  induction rs as [|[r now] rs IH]; intros l w; [constructor|].
  cbn [loop]. pose proof (body_cases l w r now) as Hb.
  assert (Hmono : forall vs,
             Forall (fun t => (MIN_TEXT_LENGTH <= len t)%Z
                              /\ exists r0 now0,
                                   In (r0, now0) rs
                                   /\ reading r0 = Some (t, true)) vs ->
             Forall (fun t => (MIN_TEXT_LENGTH <= len t)%Z
                              /\ exists r0 now0,
                                   In (r0, now0) ((r, now) :: rs)
                                   /\ reading r0 = Some (t, true)) vs).
  { intros vs H. eapply Forall_impl; [|exact H].
    intros t (Hl & r0 & now0 & Hin & Hr). split; [exact Hl|].
    exists r0, now0. split; [now right|exact Hr]. }
  destruct (reading r) as [[t f]|] eqn:Er.
  - destruct (passes_gate (last_time l) t f now) eqn:Eg.
    + rewrite Hb. apply (@SegmenterFacts.passes_gate_iff W text_message) in Eg.
      destruct Eg as (-> & Hlen & _ & _).
      assert (Hhead : (MIN_TEXT_LENGTH <= len t)%Z
                      /\ exists r0 now0,
                           In (r0, now0) ((r, now) :: rs)
                           /\ reading r0 = Some (t, true)).
      { split; [exact Hlen|]. exists r, now. split; [now left|exact Er]. }
      destruct (negb (re_search unicode_alnum t)).
      * specialize (IH (mkLocals t now) (text_message t w)).
        destruct (loop unicode_alnum text_message (mkLocals t now)
                       (text_message t w) rs) as [[l2 w2] vs].
        cbn [sent]. constructor; [exact Hhead|now apply Hmono].
      * cbn [sent]. constructor; [exact Hhead|constructor].
    + destruct Hb as (v & -> & Hv).
      destruct (negb (re_search unicode_alnum t)).
      * specialize (IH l w).
        destruct (loop unicode_alnum text_message l w rs) as [[l2 w2] vs].
        destruct v; cbn [sent]; try (now apply Hmono).
        exfalso. now apply (Hv text).
      * destruct v; cbn [sent];
          try (exfalso; eapply Hv; reflexivity); constructor.
  - destruct Hb as (v & -> & Hv).
    specialize (IH l w).
    destruct (loop unicode_alnum text_message l w rs) as [[l2 w2] vs].
    destruct v; cbn [sent]; try (now apply Hmono).
    exfalso. now apply (Hv text).
Qed.

(** X14: only finals reach the handler: every text sent is the stripped
    transcript of a final response of the input and has at least
    [MIN_TEXT_LENGTH] characters; interim results are never sent. *)
Theorem sent_are_final_transcripts start w (responses : list (response * Q)) :
  let '(_, _, vs) :=
    listen_print_loop unicode_alnum text_message start w responses in
  Forall (fun t => (MIN_TEXT_LENGTH <= len t)%Z
                   /\ exists r now,
                        In (r, now) responses /\ reading r = Some (t, true))
         (sent vs).
Proof. exact (sent_loop responses (mkLocals [] start) w). Qed.

End Loop.

Lemma lstrip_head s :
  lstrip s = [] \/ exists c r, lstrip s = c :: r /\ is_whitespace c = false.
Proof.
  induction s as [|a s IH]; [now left|].
  cbn [lstrip]. destruct (is_whitespace a) eqn:E; [exact IH|].
  right. now exists a, s.
Qed.

Lemma isspace_strip s : isspace (strip s) = false.
Proof.
  unfold strip.
  destruct (SegmenterFacts.rstrip_prefix (lstrip s)) as [ws Hws].
  destruct (rstrip (lstrip s)) as [|c u] eqn:E; [reflexivity|].
  destruct (lstrip_head s) as [H0|(c0 & r0 & H0 & Hc0)].
  - rewrite H0 in Hws. discriminate Hws.
  - rewrite H0 in Hws. injection Hws as <- _.
    cbn [isspace forallb]. now rewrite Hc0.
Qed.

(** X15: the blank test of the loop never decides: the transcript the
    loop reads is stripped, hence never all-whitespace, so the loop body
    sends a final whose pause has elapsed exactly when its stripped
    transcript has at least [MIN_TEXT_LENGTH] characters, and takes the
    too-short branch otherwise. *)
Theorem blank_test_never_decides unicode_alnum (W : Type)
    (text_message : str -> W -> W) l w r now t :
  reading r = Some (t, true) ->
  Qle_bool PAUSE_TIME (now - last_time l) = true ->
  isspace t = false
  /\ body unicode_alnum text_message l w r now
     = if (MIN_TEXT_LENGTH <=? len t)%Z
       then (mkLocals t now, text_message t w, Sent t,
             negb (re_search unicode_alnum t))
       else (l, w, TooShort, negb (re_search unicode_alnum t)).
Proof.
  unfold reading, body.
  destruct (results r) as [|result ?]; [discriminate|].
  destruct (alternatives result) as [|alt ?]; [discriminate|].
  intros H Hq. injection H as <- ->.
  pose proof (isspace_strip (transcript alt)) as Hs.
  split; [exact Hs|]. rewrite Hq, Hs. cbn [negb]. rewrite andb_true_r.
  now destruct (MIN_TEXT_LENGTH <=? len (strip (transcript alt)))%Z.
Qed.

(** X15 on a final made of three spaces, two seconds after the start:
    stripped it is empty, and the loop finds it too short. *)
Lemma blank_test_never_decides_witness :
  body Scenario.cyrillic_alnum Scenario.record_text (mkLocals [] 0) []
       (Scenario.heard [32; 32; 32]%N true) 2
  = (mkLocals [] 0, [], TooShort, true).
Proof.
  exact (proj2 (@blank_test_never_decides Scenario.cyrillic_alnum (list str)
                  Scenario.record_text (mkLocals [] 0) []
                  (Scenario.heard [32; 32; 32]%N true) 2
                  (strip [32; 32; 32]%N) eq_refl eq_refl)).
Defined.

Section Regex.

Variable unicode_alnum : char -> bool.

Lemma ci_char_e c : ci_char 101%N c = true -> is_word unicode_alnum c = true.
Proof.
  unfold ci_char. cbn. rewrite !orb_false_r, orb_true_iff, !N.eqb_eq.
  intros [-> | ->]; reflexivity.
Qed.

Lemma ci_char_q c : ci_char 113%N c = true -> is_word unicode_alnum c = true.
Proof.
  unfold ci_char. cbn. rewrite !orb_false_r, orb_true_iff, !N.eqb_eq.
  intros [-> | ->]; reflexivity.
Qed.

Lemma ci_char_t c : ci_char 116%N c = true -> is_word unicode_alnum c = true.
Proof.
  unfold ci_char. cbn. rewrite !orb_false_r, orb_true_iff, !N.eqb_eq.
  intros [-> | ->]; reflexivity.
Qed.

(** What a successful branch of the alternation has consumed. *)
Lemma branch_inv pat prev s :
  pat = w_exit \/ pat = w_quit ->
  at_boundary unicode_alnum prev s = true ->
  branch unicode_alnum pat prev s = true ->
  exists word post,
    s = word ++ post /\ ci_matches pat word
    /\ word_before unicode_alnum prev = false
    /\ word_after unicode_alnum post = false.
Proof.
  intros Hpat Hb. unfold branch.
  destruct Hpat as [-> | ->]; unfold w_exit, w_quit; cbn [literal];
    (destruct s as [|c1 s]; [discriminate|]);
    (destruct (ci_char _ c1) eqn:E1; [|discriminate]);
    (destruct s as [|c2 s]; [discriminate|]);
    (destruct (ci_char _ c2) eqn:E2; [|discriminate]);
    (destruct s as [|c3 s]; [discriminate|]);
    (destruct (ci_char _ c3) eqn:E3; [|discriminate]);
    (destruct s as [|c4 s]; [discriminate|]);
    (destruct (ci_char _ c4) eqn:E4; [|discriminate]);
    intros Hend; exists [c1; c2; c3; c4], s;
    (split; [reflexivity|]);
    (split; [repeat constructor; assumption|]);
    unfold at_boundary in Hb, Hend; cbn [word_before word_after] in Hb, Hend;
    rewrite (ci_char_t _ E4) in Hend;
    [rewrite (ci_char_e _ E1) in Hb | rewrite (ci_char_q _ E1) in Hb];
    (split; [now destruct (word_before unicode_alnum prev)
            |now destruct (word_after unicode_alnum s)]).
Qed.

Lemma search_from_inv s : forall prev,
  search_from unicode_alnum prev s = true ->
  exists pre word post,
    s = pre ++ word ++ post
    /\ (ci_matches w_exit word \/ ci_matches w_quit word)
    /\ word_before unicode_alnum
         (match last_char pre with
          | Some c => Some c
          | None => prev
          end) = false
    /\ word_after unicode_alnum post = false.
Proof.
  assert (Hhere : forall prev s0,
             match_here unicode_alnum prev s0 = true ->
             exists word post,
               s0 = word ++ post
               /\ (ci_matches w_exit word \/ ci_matches w_quit word)
               /\ word_before unicode_alnum prev = false
               /\ word_after unicode_alnum post = false).
  { intros prev s0 H. unfold match_here in H.
    apply andb_true_iff in H. destruct H as [Hb H].
    apply orb_true_iff in H. destruct H as [H|H].
    - destruct (@branch_inv w_exit prev s0 (or_introl eq_refl) Hb H)
        as (word & post & -> & Hm & Hp & Ha).
      exists word, post. auto.
    - destruct (@branch_inv w_quit prev s0 (or_intror eq_refl) Hb H)
        as (word & post & -> & Hm & Hp & Ha).
      exists word, post. auto. }
  induction s as [|c s IH]; intros prev H.
  - cbn [search_from] in H. rewrite orb_false_r in H.
    destruct (Hhere _ _ H) as (word & post & E & Hm & Hp & Ha).
    exists [], word, post. auto.
  - cbn [search_from] in H. apply orb_true_iff in H. destruct H as [H|H].
    + destruct (Hhere _ _ H) as (word & post & E & Hm & Hp & Ha).
      exists [], word, post. auto.
    + destruct (IH (Some c) H) as (pre & word & post & -> & Hm & Hp & Ha).
      exists (c :: pre), word, post. split; [reflexivity|].
      split; [exact Hm|]. split; [|exact Ha].
      rewrite SegmenterFacts.last_char_cons.
      destruct (last_char pre); exact Hp.
Qed.

Lemma matches_here prev word post :
  ci_matches w_exit word \/ ci_matches w_quit word ->
  word_before unicode_alnum prev = false ->
  word_after unicode_alnum post = false ->
  match_here unicode_alnum prev (word ++ post) = true.
Proof.
  intros Hw Hprev Hpost.
  assert (Hend : forall c4, is_word unicode_alnum c4 = true ->
                            at_boundary unicode_alnum (Some c4) post = true).
  { intros c4 H4. unfold at_boundary. cbn [word_before].
    now rewrite H4, Hpost. }
  destruct Hw as [Hw|Hw]; unfold ci_matches in Hw;
    inversion Hw as [|? c1 ? ? H1 Hw1]; subst;
    inversion Hw1 as [|? c2 ? ? H2 Hw2]; subst;
    inversion Hw2 as [|? c3 ? ? H3 Hw3]; subst;
    inversion Hw3 as [|? c4 ? ? H4 Hw4]; subst;
    inversion Hw4; subst;
    unfold match_here, branch, w_exit, w_quit; cbn [app literal].
  - rewrite H1, H2, H3, H4, (Hend c4 (ci_char_t _ H4)).
    unfold at_boundary. cbn [word_after].
    now rewrite Hprev, (ci_char_e _ H1).
  - rewrite H1, H2, H3, H4, (Hend c4 (ci_char_t _ H4)).
    unfold at_boundary. cbn [word_after].
    rewrite Hprev, (ci_char_q _ H1). cbn [xorb andb].
    apply orb_true_r.
Qed.

(** [re.search] finds the pattern exactly in the texts that hold such a
    whole word. *)
Lemma re_search_iff text :
  re_search unicode_alnum text = true
  <-> matches_exit_word unicode_alnum text.
Proof.
  split.
  - intros H. destruct (search_from_inv _ _ H)
      as (pre & word & post & -> & Hm & Hp & Ha).
    exists pre, word, post. split; [reflexivity|]. split; [exact Hm|].
    split; [|exact Ha]. destruct (last_char pre); exact Hp.
  - intros (pre & word & post & -> & Hm & Hp & Ha).
    unfold re_search. apply SegmenterFacts.search_from_skip.
    apply SegmenterFacts.search_from_here. apply matches_here; auto.
    destruct (last_char pre); [exact Hp|reflexivity].
Qed.

(** X16: the loop ends on a response exactly when its transcript holds
    "exit" or "quit" as a whole word, a character of the text standing for
    a letter of the pattern when the engine folds it to that letter: the
    text splits into a part that does not end with a word character, such a
    word, and a part that does not begin with a word character.  A
    transcript without such a word never ends the loop. *)
Theorem loop_ends_iff_exit_word (W : Type) (text_message : str -> W -> W)
    l w r now t f :
  reading r = Some (t, f) ->
  snd (body unicode_alnum text_message l w r now) = false
  <-> matches_exit_word unicode_alnum t.
Proof.
  intros Hr.
  destruct (@SegmenterFacts.body_read unicode_alnum W text_message
              l w r now t f Hr) as (v & Hb & _).
  rewrite Hb. cbn [snd]. rewrite negb_false_iff. apply re_search_iff.
Qed.

End Regex.

(** X16 on the transcript of the scenario, as an interim result. *)
Lemma loop_ends_iff_exit_word_witness :
  reading (Scenario.heard Scenario.poka_exit false)
  = Some (Scenario.poka_exit, false)
  /\ snd (body Scenario.cyrillic_alnum Scenario.record_text
               (mkLocals [] 0) [] (Scenario.heard Scenario.poka_exit false) 0)
     = false.
Proof.
  split; [reflexivity|].
  apply (@loop_ends_iff_exit_word Scenario.cyrillic_alnum (list str)
           Scenario.record_text (mkLocals [] 0) []
           (Scenario.heard Scenario.poka_exit false) 0 Scenario.poka_exit
           false eq_refl).
  exists [1087; 1086; 1082; 1072; 44; 32]%N, w_exit, [].
  repeat split. left. unfold ci_matches, w_exit. repeat constructor.
Defined.

End SegmenterMore.

(** ** The loop with its handler *)

Module SessionFacts.
Import Py Spec Session SessionSpec.

(** The capture switch after a turn whose mixer calls succeed. *)
Lemma capture_after_turn env message s :
  mixer_works env ->
  Arbiter.capture_enabled (fst (Arbiter.text_message env message s)) = true
  \/ Arbiter.capture_enabled (fst (Arbiter.text_message env message s))
     = Arbiter.capture_enabled s.
Proof.
  intros (Ho & Hm & Hu & Hr & Hua).
  ArbiterMore.turn_cases env; try congruence; cbn; auto.
Qed.

Lemma fold_handler_capture env_of texts : forall d,
  (forall n, mixer_works (env_of n)) ->
  Arbiter.capture_enabled (state d) = true ->
  Arbiter.capture_enabled
    (state (fold_left (fun d t => handler env_of t d) texts d)) = true.
Proof.
  induction texts as [|t texts IH]; intros d Hm Hc; [exact Hc|].
  cbn [fold_left]. apply IH; [exact Hm|].
  unfold handler. destruct (outcome d); [|exact Hc].
  pose proof (capture_after_turn t (state d) (Hm (turns d))) as H.
  destruct (Arbiter.text_message (env_of (turns d)) t (state d)) as [s r].
  cbn [state fst] in *. destruct H as [H|H]; congruence.
Qed.

(** X18: over a whole run of the loop with [text_message] as handler, when
    the mixer calls succeed in every turn, a microphone that was enabled
    when the loop started is enabled when it ends, whatever was heard and
    whatever else failed in the turns. *)
Theorem session_keeps_capture_enabled unicode_alnum env_of start s
    (responses : list (Segmenter.response * Q)) :
  (forall n, mixer_works (env_of n)) ->
  Arbiter.capture_enabled s = true ->
  let '(_, d, _) := session unicode_alnum env_of start s responses in
  Arbiter.capture_enabled (state d) = true.
Proof.
  intros Hm Hc. unfold session, Segmenter.listen_print_loop.
  pose proof (SegmenterFacts.loop_handler unicode_alnum (handler env_of)
                responses (Segmenter.mkLocals [] start)
                (mkDialog s (Ok tt) 0)) as H.
  destruct (Segmenter.loop unicode_alnum (handler env_of)
              (Segmenter.mkLocals [] start) (mkDialog s (Ok tt) 0) responses)
    as [[l d] vs].
  rewrite H. now apply fold_handler_capture.
Qed.

(** X18 on the scenario of three finals, the player failing in every
    turn. *)
Lemma session_keeps_capture_enabled_witness :
  (forall n : nat, mixer_works Scenario.player_down)
  /\ Arbiter.capture_enabled
       (state (snd (fst (session Scenario.cyrillic_alnum
                                 (fun _ => Scenario.player_down) 0
                                 Scenario.listening Scenario.three_finals))))
     = true.
Proof.
  assert (Hm : forall n : nat, mixer_works Scenario.player_down)
    by (intros n; repeat split).
  split; [exact Hm|].
  pose proof (@session_keeps_capture_enabled Scenario.cyrillic_alnum
                (fun _ => Scenario.player_down) 0 Scenario.listening
                Scenario.three_finals Hm eq_refl) as H.
  destruct (session Scenario.cyrillic_alnum (fun _ => Scenario.player_down)
              0 Scenario.listening Scenario.three_finals) as [[l d] vs].
  exact H.
Defined.

(** What a turn does to the world of [ask] is what [ask] does. *)
Lemma turn_gpt env message s :
  Arbiter.gpt (fst (Arbiter.text_message env message s))
  = fst (Gpt.ask (Arbiter.gpt s) 111 message).
Proof. ArbiterMore.turn_cases env; reflexivity. Qed.

(** A turn whose failures are all [Exception]s returns normally. *)
Lemma turn_returns env message s :
  all_exceptions env ->
  (forall e, snd (Gpt.ask (Arbiter.gpt s) 111 message) = Raise e ->
             is_Exception e = true) ->
  snd (Arbiter.text_message env message s) = Ok tt.
Proof.
  intros (Hsyn & H1 & H2 & H3 & H4 & H5 & H6 & H7 & H8 & H9) Hask.
  unfold ordinary in *.
  ArbiterMore.turn_cases env; cbn in *; try reflexivity; try congruence;
    try (rewrite (Hask _ eq_refl) in *; discriminate);
    try match goal with
        | E : Arbiter.synthesize_speech env _ = Raise ?e |- _ =>
            rewrite (Hsyn _ _ E) in *; discriminate
        end.
Qed.

Lemma saved_tables_app tr1 tr2 :
  saved_tables (tr1 ++ tr2) = saved_tables tr1 ++ saved_tables tr2.
Proof.
  induction tr1 as [|ev tr1 IH]; [reflexivity|].
  destruct ev; cbn [app saved_tables]; now rewrite IH.
Qed.

(** With readable files, a store that can be written and a backend that
    answers, [ask] replies, saves the table it loaded followed by the
    exchange, and leaves a world in which it will reply again. *)
Lemma ask_answers w uid text :
  always_answers w ->
  exists w' reply,
    Gpt.ask w uid text = (w', Ok reply)
    /\ always_answers w'
    /\ saved_tables (Gpt.trace w')
       = saved_tables (Gpt.trace w)
         ++ [loaded w ++ [Gpt.mkRow uid "user" text;
                          Gpt.mkRow uid "assistant" reply]].
Proof.
  intros ([role_text Hrole] & Hhist & Hwrite & Hread & Hans).
  pose proof (@GptFacts.prepare_ok w uid text role_text Hhist Hrole) as Hp.
  rewrite (@GptFacts.ask_after_prepare _ _ _ _ _ Hp).
  destruct (Hans (Gpt.build_messages role_text uid
                    (loaded w ++ [Gpt.mkRow uid "user" text])))
    as [reply Hreply].
  rewrite Hreply. cbn zeta. rewrite Hwrite.
  eexists _, reply. split; [reflexivity|]. split.
  - split; [now exists role_text|]. cbn [Gpt.history_csv Gpt.csv_write
      Gpt.csv_reread Gpt.completion Gpt.role_txt].
    split; [|now repeat split].
    intros e He. destruct (Hread ((loaded w ++ [Gpt.mkRow uid "user" text])
                                  ++ [Gpt.mkRow uid "assistant" reply]))
      as [table' Ht].
    rewrite Ht in He. discriminate He.
  - cbn [Gpt.trace]. rewrite saved_tables_app. cbn [saved_tables].
    now rewrite <- app_assoc.
Qed.

Lemma fold_handler_history env_of texts : forall d,
  (forall n, all_exceptions (env_of n)) ->
  outcome d = Ok tt ->
  always_answers (Arbiter.gpt (state d)) ->
  let d' := fold_left (fun d t => handler env_of t d) texts d in
  outcome d' = Ok tt
  /\ turns d' = (turns d + length texts)%nat
  /\ exists saved,
       saved_tables (Gpt.trace (Arbiter.gpt (state d')))
       = saved_tables (Gpt.trace (Arbiter.gpt (state d))) ++ saved
       /\ Forall2 ends_with_exchange texts saved.
Proof.
  induction texts as [|t texts IH]; intros d Henv Ho Ha.
  - cbn. split; [exact Ho|]. split; [lia|]. exists [].
    split; [now rewrite app_nil_r|constructor].
  - cbn [fold_left]. set (d1 := handler env_of t d).
    destruct (ask_answers 111 t Ha) as (w' & reply & Hask & Ha' & Hl).
    assert (Hd1 : outcome d1 = Ok tt /\ turns d1 = S (turns d)
                  /\ Arbiter.gpt (state d1) = w').
    { unfold d1, handler. rewrite Ho.
      pose proof (turn_gpt (env_of (turns d)) t (state d)) as Hg.
      pose proof (@turn_returns (env_of (turns d)) t (state d)
                    (Henv (turns d))) as Hr.
      rewrite Hask in Hg, Hr.
      destruct (Arbiter.text_message (env_of (turns d)) t (state d))
        as [s1 r1].
      cbn [state outcome turns fst snd] in *.
      split; [apply Hr; intros e H; discriminate H|].
      split; [reflexivity|exact Hg]. }
    destruct Hd1 as (Ho1 & Ht1 & Hg1).
    assert (Ha1 : always_answers (Arbiter.gpt (state d1)))
      by (now rewrite Hg1).
    destruct (IH d1 Henv Ho1 Ha1) as (Ho2 & Ht2 & saved & Hs2 & Hf).
    split; [exact Ho2|]. split; [rewrite Ht2, Ht1; cbn [length]; lia|].
    eexists (_ :: saved). split.
    + rewrite Hs2, Hg1, Hl, <- app_assoc. reflexivity.
    + constructor; [|exact Hf]. now eexists _, reply.
Qed.

(** X19: one exchange per utterance: when the role file is readable, the
    history file is readable or cannot be opened, every write of it
    succeeds, pandas can parse what it wrote, the backend answers and every
    failure of a turn is an [Exception], a run of the loop takes one turn
    per text sent and saves the history once per text sent, in order: each
    table saved ends with one user row holding the text sent and one
    assistant row holding a reply. *)
Theorem session_saves_one_exchange_per_utterance unicode_alnum env_of
    start s (responses : list (Segmenter.response * Q)) :
  always_answers (Arbiter.gpt s) ->
  (forall n, all_exceptions (env_of n)) ->
  let '(_, d, vs) := session unicode_alnum env_of start s responses in
  outcome d = Ok tt
  /\ turns d = length (Segmenter.sent vs)
  /\ exists saved,
       saved_tables (Gpt.trace (Arbiter.gpt (state d)))
       = saved_tables (Gpt.trace (Arbiter.gpt s)) ++ saved
       /\ Forall2 ends_with_exchange (Segmenter.sent vs) saved.
Proof.
  intros Ha Henv. unfold session, Segmenter.listen_print_loop.
  pose proof (SegmenterFacts.loop_handler unicode_alnum (handler env_of)
                responses (Segmenter.mkLocals [] start)
                (mkDialog s (Ok tt) 0)) as H.
  destruct (Segmenter.loop unicode_alnum (handler env_of)
              (Segmenter.mkLocals [] start) (mkDialog s (Ok tt) 0) responses)
    as [[l d] vs].
  rewrite H.
  exact (@fold_handler_history env_of (Segmenter.sent vs)
           (mkDialog s (Ok tt) 0) Henv eq_refl Ha).
Qed.

(** X19 on the scenario started [PAUSE_TIME] early, the write of the audio
    file failing in every turn: two texts sent, two turns taken. *)
Lemma session_saves_one_exchange_per_utterance_witness :
  always_answers (Arbiter.gpt Scenario.listening)
  /\ (forall n : nat, all_exceptions Scenario.disk_full)
  /\ turns (snd (fst (session Scenario.cyrillic_alnum
                              (fun _ => Scenario.disk_full) (- (3 # 2))
                              Scenario.listening Scenario.three_finals)))
     = 2%nat.
Proof.
  assert (Ha : always_answers (Arbiter.gpt Scenario.listening)).
  { split; [now exists Scenario.hello|]. split.
    - intros e H. injection H as <-. reflexivity.
    - split; [reflexivity|]. split.
      + intros table. now exists table.
      + intros messages. now exists Scenario.hello. }
  assert (He : forall n : nat, all_exceptions Scenario.disk_full).
  { intros n. repeat split; try discriminate. }
  split; [exact Ha|]. split; [exact He|].
  pose proof (@session_saves_one_exchange_per_utterance
                Scenario.cyrillic_alnum (fun _ => Scenario.disk_full)
                (- (3 # 2)) Scenario.listening Scenario.three_finals Ha He)
    as H.
  destruct (session Scenario.cyrillic_alnum (fun _ => Scenario.disk_full)
              (- (3 # 2)) Scenario.listening Scenario.three_finals)
    as [[l d] vs] eqn:E.
  destruct H as (_ & Ht & _). cbn [fst snd]. rewrite Ht.
  vm_compute in E. injection E as _ _ <-. reflexivity.
Defined.

End SessionFacts.

(** ** Start-up: the audio mixer and the greeting *)

Module StartupFacts.
Import Py Startup.

(** X20: [initialize_audio] sets [SDL_AUDIODRIVER] to [alsa] in all cases
    and swallows any failure of [mixer.quit()].  It returns normally, with
    the mixer initialised, exactly when the first initialisation succeeds,
    or fails with an [Exception] and the plain [init()] succeeds; what it
    raises otherwise is the failure of the plain [init()] or a failure of
    the first attempt that is not an [Exception]. *)
Theorem initialize_audio_outcome env a :
  let '(a', r) := initialize_audio env a in
  let first :=
    match mixer_pre_init env with
    | Some e => Some e
    | None => mixer_init env
    end in
  sdl_audiodriver a' = Some "alsa"%string
  /\ match first with
     | None =>
         r = Ok tt /\ mixer_ready a' = true /\ inits a' = inits a ++ [true]
     | Some e =>
         if is_Exception e then
           match mixer_init_default env with
           | None =>
               r = Ok tt /\ mixer_ready a' = true
               /\ inits a' = inits a ++ [false]
           | Some e' => r = Raise e' /\ inits a' = inits a
           end
         else r = Raise e /\ inits a' = inits a
     end.
Proof.
  unfold initialize_audio.
  destruct (mixer_quit env), (mixer_pre_init env) as [e1|],
    (mixer_init env) as [e2|];
    cbn;
    try (destruct (is_Exception e1)); try (destruct (is_Exception e2));
    try (destruct (mixer_init_default env)); cbn;
    repeat split; auto.
Qed.

(** The muted part of the greeting, once the mixer is open and accepts the
    mute. *)
Lemma greeting_body_muted env wav s :
  greeting_mixer env = None -> greeting_mute env = None ->
  exists s1 r,
    greeting_body env wav s = (s1, true, r)
    /\ Arbiter.capture_enabled s1 = false
    /\ Arbiter.setrec_calls s1 = Arbiter.setrec_calls s ++ [0]%Z
    /\ match greeting_play env with
       | Some e => r = Raise e /\ Arbiter.played s1 = Arbiter.played s
       | None =>
           Arbiter.played s1 = Arbiter.played s ++ [wav]
           /\ match greeting_busy env with
              | Some e => r = Raise e
              | None => r = Ok tt
              end
       end.
Proof.
  intros Ho Hm. unfold greeting_body, Arbiter.bind, Arbiter.setrec,
    Arbiter.call. rewrite Ho, Hm.
  destruct (greeting_play env) as [e|].
  { eexists _, _. split; [reflexivity|]. cbn. auto. }
  destruct (greeting_busy env) as [e|].
  { eexists _, _. split; [reflexivity|]. cbn. auto. }
  rewrite ArbiterMore.wait_while_busy_exact.
  eexists _, _. split; [reflexivity|]. cbn. auto.
Qed.

(** X21: when the greeting file loads and the mixer calls succeed,
    [play_greeting] mutes, plays and unmutes: capture is enabled when it
    ends, also when the player fails; unlike [text_message] it lets the
    failure of the player out. *)
Theorem play_greeting_restores_capture env wav s :
  wav_load env = Ok wav ->
  greeting_mixer env = None -> greeting_mute env = None ->
  greeting_unmute env = None ->
  let '(s', r) := play_greeting env s in
  Arbiter.capture_enabled s' = true
  /\ Arbiter.setrec_calls s' = Arbiter.setrec_calls s ++ [0; 1]%Z
  /\ match greeting_play env, greeting_busy env with
     | Some e, _ => r = Raised (Library e)
                    /\ Arbiter.played s' = Arbiter.played s
     | None, Some e => r = Raised (Library e)
                       /\ Arbiter.played s' = Arbiter.played s ++ [wav]
     | None, None => r = Returned
                     /\ Arbiter.played s' = Arbiter.played s ++ [wav]
     end.
Proof.
  intros Hw Ho Hm Hu. unfold play_greeting. rewrite Hw.
  destruct (@greeting_body_muted env wav s Ho Hm)
    as (s1 & r & -> & Hc & Hcalls & Hplay).
  rewrite Hu. cbn [Arbiter.do_setrec Arbiter.capture_enabled
                   Arbiter.setrec_calls Arbiter.played].
  split; [reflexivity|]. split; [now rewrite Hcalls, <- app_assoc|].
  destruct (greeting_play env) as [e|].
  - destruct Hplay as [-> Hp]. now split.
  - destruct Hplay as [Hp Hr]. destruct (greeting_busy env) as [e|];
      rewrite Hr; now split.
Qed.

(** X21 when the player fails during the greeting. *)
Lemma play_greeting_restores_capture_witness :
  let env := mkGreetingEnv (Ok Scenario.chunk10) None None
                           (Some PygameError) None 3 None in
  Arbiter.capture_enabled (fst (play_greeting env Scenario.listening)) = true
  /\ snd (play_greeting env Scenario.listening) = Raised (Library PygameError).
Proof.
  intros env.
  pose proof (@play_greeting_restores_capture env Scenario.chunk10
                Scenario.listening eq_refl eq_refl eq_refl eq_refl) as H.
  destruct (play_greeting env Scenario.listening) as [s' r].
  cbn [fst snd]. destruct H as (Hc & _ & Hr & _). split; assumption.
Defined.

(** X22: [play_greeting] raises [UnboundLocalError] exactly when the
    greeting file loads and [alsaaudio.Mixer(...)] fails: the [finally]
    clause then reads the local [mixer] that was never assigned, so the
    error of the mixer itself is not what comes out; and whenever the mixer
    cannot be opened nothing is muted or played. *)
Theorem play_greeting_masks_mixer_error env s :
  (snd (play_greeting env s) = Raised UnboundLocalError
   <-> (exists wav, wav_load env = Ok wav) /\ greeting_mixer env <> None)
  /\ (greeting_mixer env <> None -> fst (play_greeting env s) = s).
Proof.
  unfold play_greeting, greeting_body.
  destruct (wav_load env) as [wav|e0].
  - destruct (greeting_mixer env) as [e|].
    + cbn. split; [|reflexivity]. split; [|reflexivity].
      intros _. split; [now exists wav|discriminate].
    + split; [|intros H; now contradiction H].
      match goal with
      | |- context [match ?m s with _ => _ end] => destruct (m s) as [s1 r]
      end.
      destruct (greeting_unmute env), r; cbn;
        (split; [discriminate|intros [_ H]; now contradiction H]).
  - cbn. split; [|reflexivity].
    split; [discriminate|intros [[wav H] _]; discriminate H].
Qed.

(** X22 with a sound card that has no ['Mic'] control. *)
Lemma play_greeting_masks_mixer_error_witness :
  let env := mkGreetingEnv (Ok Scenario.chunk10) (Some ALSAAudioError) None
                           None None 3 None in
  ((exists wav, wav_load env = Ok wav) /\ greeting_mixer env <> None)
  /\ snd (play_greeting env Scenario.listening) = Raised UnboundLocalError.
Proof.
  intros env.
  assert (H : (exists wav, wav_load env = Ok wav)
              /\ greeting_mixer env <> None).
  { split; [now exists Scenario.chunk10|discriminate]. }
  split; [exact H|].
  exact (proj2 (proj1 (@play_greeting_masks_mixer_error env
                         Scenario.listening)) H).
Defined.

End StartupFacts.
